(** * Arrival alarm: geofence tracking of [src/App.tsx] and [src/utils/geo.ts]

    The development embeds the state-relevant logic of the React component
    [App] (position fixes, target, radius, alarm and arming flags, the
    geolocation watch with its accuracy fallback) and the distance function
    of [utils/geo.ts].

    JavaScript numbers are IEEE doubles; they are idealised here as the real
    numbers of the Standard Library, so [Math.sin], [Math.cos], [Math.sqrt]
    and [Math.atan2] become [sin], [cos], [sqrt] and a two-argument
    arctangent defined below.  Comparisons of numbers are decided with
    [Rle_dec] and [Rgt_dec]. *)

From Stdlib Require Import Reals Lra List ZArith String Bool.
Import ListNotations.

Open Scope R_scope.

(** ** [src/types.ts] *)

Record GeoLocation := mkGeo { lat : R; lng : R }.

(** [TargetLocation extends GeoLocation]: the inherited part is the
    coercion [position]. *)
Record TargetLocation := mkTarget {
  position :> GeoLocation;
  radius : R;
  timestamp : Z
}.

(** ** [src/utils/geo.ts] *)

Module Math.

(** [Math.atan2(y, x)]: the angle of the point [(x, y)], in (-PI, PI]. *)
Definition atan2 (y x : R) : R :=
  if Rlt_dec 0 x then atan (y / x)
  else if Rlt_dec x 0 then
    (if Rle_dec 0 y then atan (y / x) + PI else atan (y / x) - PI)
  else if Rlt_dec 0 y then PI / 2
  else if Rlt_dec y 0 then - (PI / 2)
  else 0.

End Math.

(** The haversine argument: the [a] of [calculateDistance]. *)
Definition haversine_a (point1 point2 : GeoLocation) : R :=
  let dphi := ((lat point2 - lat point1) * PI) / 180 in
  let dlambda := ((lng point2 - lng point1) * PI) / 180 in
  let phi1 := (lat point1 * PI) / 180 in
  let phi2 := (lat point2 * PI) / 180 in
  sin (dphi / 2) * sin (dphi / 2) +
  cos phi1 * cos phi2 * sin (dlambda / 2) * sin (dlambda / 2).

Definition calculateDistance (point1 point2 : GeoLocation) : R :=
  let R := 6371000 in
  let a := haversine_a point1 point2 in
  let c := 2 * Math.atan2 (sqrt a) (sqrt (1 - a)) in
  R * c.

(** ** The platform's geolocation service (the browser side of
    [navigator.geolocation]) *)

Record PositionOptions := mkOptions {
  enableHighAccuracy : bool;
  timeout : Z;
  maximumAge : Z
}.

(** Active watches, newest first, and the next id to hand out. *)
Record Geolocation := mkGeolocation {
  watches : list (Z * PositionOptions);
  nextWatchId : Z
}.

Definition watchPosition (options : PositionOptions) (g : Geolocation)
  : Z * Geolocation :=
  (nextWatchId g,
   {| watches := (nextWatchId g, options) :: watches g;
      nextWatchId := (nextWatchId g + 1)%Z |}).

Definition clearWatch (id : Z) (g : Geolocation) : Geolocation :=
  {| watches := filter (fun w => negb (Z.eqb (fst w) id)) (watches g);
     nextWatchId := nextWatchId g |}.

(** [GeolocationPositionError]: code 1 is PERMISSION_DENIED, 2 is
    POSITION_UNAVAILABLE, 3 is TIMEOUT. *)
Record GeolocationPositionError := mkError { code : Z; message : string }.

(** ** [src/App.tsx]: the component state *)

Record FocusRequest := mkFocus {
  location : GeoLocation;
  requestedAt : Z
}.

Record App := mkApp {
  hasStarted : bool;
  permissionError : option string;
  userLocation : option GeoLocation;
  targetLocation : option TargetLocation;
  distance : option R;
  targetRadius : R;
  focusRequest : option FocusRequest;
  isAlarmActive : bool;
  hasTriggeredForCurrentTarget : bool;
  watchIdRef : option Z;
  geolocation : option Geolocation   (* [None]: [!navigator.geolocation] *)
}.

(** State as [useState] initialises it, on a browser whose geolocation
    service is [g]. *)
Definition initial (g : option Geolocation) : App :=
  {| hasStarted := false; permissionError := None; userLocation := None;
     targetLocation := None; distance := None; targetRadius := 100;
     focusRequest := None; isAlarmActive := false;
     hasTriggeredForCurrentTarget := false; watchIdRef := None;
     geolocation := g |}.

(** The state setters. *)

Definition setHasStarted (v : bool) (s : App) : App :=
  mkApp v (permissionError s) (userLocation s) (targetLocation s)
        (distance s) (targetRadius s) (focusRequest s) (isAlarmActive s)
        (hasTriggeredForCurrentTarget s) (watchIdRef s) (geolocation s).

Definition setPermissionError (v : option string) (s : App) : App :=
  mkApp (hasStarted s) v (userLocation s) (targetLocation s)
        (distance s) (targetRadius s) (focusRequest s) (isAlarmActive s)
        (hasTriggeredForCurrentTarget s) (watchIdRef s) (geolocation s).

Definition setUserLocation (v : option GeoLocation) (s : App) : App :=
  mkApp (hasStarted s) (permissionError s) v (targetLocation s)
        (distance s) (targetRadius s) (focusRequest s) (isAlarmActive s)
        (hasTriggeredForCurrentTarget s) (watchIdRef s) (geolocation s).

Definition setTargetLocation (v : option TargetLocation) (s : App) : App :=
  mkApp (hasStarted s) (permissionError s) (userLocation s) v
        (distance s) (targetRadius s) (focusRequest s) (isAlarmActive s)
        (hasTriggeredForCurrentTarget s) (watchIdRef s) (geolocation s).

Definition setDistance (v : option R) (s : App) : App :=
  mkApp (hasStarted s) (permissionError s) (userLocation s) (targetLocation s)
        v (targetRadius s) (focusRequest s) (isAlarmActive s)
        (hasTriggeredForCurrentTarget s) (watchIdRef s) (geolocation s).

Definition setTargetRadius (v : R) (s : App) : App :=
  mkApp (hasStarted s) (permissionError s) (userLocation s) (targetLocation s)
        (distance s) v (focusRequest s) (isAlarmActive s)
        (hasTriggeredForCurrentTarget s) (watchIdRef s) (geolocation s).

Definition setFocusRequest (v : option FocusRequest) (s : App) : App :=
  mkApp (hasStarted s) (permissionError s) (userLocation s) (targetLocation s)
        (distance s) (targetRadius s) v (isAlarmActive s)
        (hasTriggeredForCurrentTarget s) (watchIdRef s) (geolocation s).

Definition setIsAlarmActive (v : bool) (s : App) : App :=
  mkApp (hasStarted s) (permissionError s) (userLocation s) (targetLocation s)
        (distance s) (targetRadius s) (focusRequest s) v
        (hasTriggeredForCurrentTarget s) (watchIdRef s) (geolocation s).

Definition setHasTriggeredForCurrentTarget (v : bool) (s : App) : App :=
  mkApp (hasStarted s) (permissionError s) (userLocation s) (targetLocation s)
        (distance s) (targetRadius s) (focusRequest s) (isAlarmActive s)
        v (watchIdRef s) (geolocation s).

Definition setWatch (id : option Z) (g : option Geolocation) (s : App) : App :=
  mkApp (hasStarted s) (permissionError s) (userLocation s) (targetLocation s)
        (distance s) (targetRadius s) (focusRequest s) (isAlarmActive s)
        (hasTriggeredForCurrentTarget s) id g.

(** ** The geolocation watch, [startWatchingLocation] *)

Definition errorMessage (error : GeolocationPositionError) : string :=
  if Z.eqb (code error) 1 then
    "Location access denied. Please enable location permissions."%string
  else if Z.eqb (code error) 2 then
    "Location unavailable. Please check your GPS signal."%string
  else if Z.eqb (code error) 3 then
    "Location request timed out. Please try again."%string
  else ("Location error: " ++ message error)%string.

(** [attemptWatch]: registers a watch and stores its id in the ref.  It is
    called only where [navigator.geolocation] exists; the branch [None] is
    there for totality. *)
Definition attemptWatch (isHighAccuracy : bool) (s : App) : App :=
  let options := {| enableHighAccuracy := isHighAccuracy;
                    timeout := 15000; maximumAge := 0 |} in
  match geolocation s with
  | Some g =>
      let (id, g') := watchPosition options g in
      setWatch (Some id) (Some g') s
  | None => s
  end.

(** The success callback of a watch. *)
Definition onPosition (coords : GeoLocation) (s : App) : App :=
  setPermissionError None (setUserLocation (Some coords) s).

(** The error callback of the watch started by [attemptWatch isHighAccuracy]. *)
Definition onPositionError (isHighAccuracy : bool)
    (error : GeolocationPositionError) (s : App) : App :=
  if isHighAccuracy && (Z.eqb (code error) 3 || Z.eqb (code error) 2) then
    attemptWatch false s
  else
    setPermissionError (Some (errorMessage error)) s.

Definition startWatchingLocation (initialHighAccuracy : bool) (s : App) : App :=
  let s1 :=
    match watchIdRef s with
    | Some id => setWatch None (option_map (clearWatch id) (geolocation s)) s
    | None => s
    end in
  match geolocation s1 with
  | None =>
      setPermissionError
        (Some "Geolocation is not supported by your browser"%string) s1
  | Some _ => attemptWatch initialHighAccuracy s1
  end.

(** The unlocking of the audio element in [handleStart] is presentation and
    is left out, as are [audioSrc] and [audioRef] in the state. *)
Definition handleStart (s : App) : App :=
  startWatchingLocation true (setPermissionError None (setHasStarted true s)).

(** ** The alarm and the geofencing effect *)

(** What the component does to the outside: a call of [triggerAlarm] is the
    arrival event (it shows the overlay and starts the sound). *)
Inductive Event := Arrival.

Definition triggerAlarm (s : App) : App :=
  setHasTriggeredForCurrentTarget true (setIsAlarmActive true s).

(** One run of the geofencing [useEffect].  The body reads the values of the
    render it belongs to (those of [s]) and queues its writes. *)
Definition geofencing (s : App) : App * list Event :=
  match userLocation s, targetLocation s with
  | Some u, Some t =>
      let dist := calculateDistance u t in
      let s1 := setDistance (Some dist) s in
      if Rle_dec dist (radius t) then
        if negb (isAlarmActive s) && negb (hasTriggeredForCurrentTarget s)
        then (triggerAlarm s1, [Arrival])
        else (s1, [])
      else
        if Rgt_dec dist (radius t + 50)
        then (setHasTriggeredForCurrentTarget false s1, [])
        else (s1, [])
  | _, _ => (setDistance None s, [])
  end.

(** React runs the effect after a render in which one of its dependencies
    ([userLocation], [targetLocation], [hasTriggeredForCurrentTarget],
    [isAlarmActive]) changed, and again after the render its own writes
    cause.  [runEffects n] is [n] such runs in a row. *)
Fixpoint runEffects (n : nat) (s : App) : App * list Event :=
  match n with
  | O => (s, [])
  | S k =>
      let (s1, e1) := geofencing s in
      let (s2, e2) := runEffects k s1 in
      (s2, e1 ++ e2)
  end.

(** ** The handlers *)

Definition handleSetTarget (location : GeoLocation) (now : Z) (s : App) : App :=
  setIsAlarmActive false
    (setHasTriggeredForCurrentTarget false
       (setTargetLocation
          (Some {| position := location; radius := targetRadius s;
                   timestamp := now |}) s)).

Definition handleRadiusChange (newRadius : R) (s : App) : App :=
  let s1 := setTargetRadius newRadius s in
  match targetLocation s with
  | Some _ =>
      setTargetLocation
        (match targetLocation s1 with
         | Some prev => Some {| position := position prev; radius := newRadius;
                                timestamp := timestamp prev |}
         | None => None
         end) s1
  | None => s1
  end.

Definition handleSearchSelect (location : GeoLocation) (name : string)
    (now : Z) (s : App) : App :=
  setFocusRequest (Some {| location := location; requestedAt := now |})
    (handleSetTarget location now s).

Definition handleClearTarget (s : App) : App :=
  setHasTriggeredForCurrentTarget false
    (setIsAlarmActive false (setTargetLocation None s)).

Definition handleDismissAlarm (s : App) : App :=
  setIsAlarmActive false s.

Definition handleCenterLocation (now : Z) (s : App) : App :=
  match userLocation s with
  | Some u => setFocusRequest (Some {| location := u; requestedAt := now |}) s
  | None => s
  end.

(** ** The component as a transition system *)

(** What can happen to the mounted component: a user action or a callback of
    the platform.  [now] is the value [Date.now()] returns in the handler;
    [WatchError b e] is the error callback of a watch started by
    [attemptWatch b]. *)
Inductive Msg :=
| Start
| Fix (coords : GeoLocation)
| WatchError (isHighAccuracy : bool) (error : GeolocationPositionError)
| MapClick (location : GeoLocation) (now : Z)
| SearchSelect (location : GeoLocation) (name : string) (now : Z)
| RadiusChange (newRadius : R)
| ClearTarget
| DismissAlarm
| CenterLocation (now : Z).

Definition handle (m : Msg) (s : App) : App :=
  match m with
  | Start => handleStart s
  | Fix coords => onPosition coords s
  | WatchError b e => onPositionError b e s
  | MapClick l now => handleSetTarget l now s
  | SearchSelect l name now => handleSearchSelect l name now s
  | RadiusChange r => handleRadiusChange r s
  | ClearTarget => handleClearTarget s
  | DismissAlarm => handleDismissAlarm s
  | CenterLocation now => handleCenterLocation now s
  end.

(** A message is handled, the component re-renders, and the geofencing
    effect runs until its dependencies are stable.  Two runs are the most
    React can make: the second run of the effect changes nothing
    ([geofencing_settled]), so that any number of runs from one on amounts to
    one ([runEffects_settled]). *)
Definition step (m : Msg) (s : App) : App * list Event :=
  runEffects 2 (handle m s).

Fixpoint run (ms : list Msg) (s : App) : App * list Event :=
  match ms with
  | [] => (s, [])
  | m :: rest =>
      let (s1, e1) := step m s in
      let (s2, e2) := run rest s1 in
      (s2, e1 ++ e2)
  end.

(** Number of arrival events of a run. *)
Definition arrivals (ms : list Msg) (s : App) : nat :=
  List.length (snd (run ms s)).

(** The arming state of the specification: [Triggered] is
    [hasTriggeredForCurrentTarget = true]. *)
Inductive ArmState := Armed | Triggered.

Definition armState (s : App) : ArmState :=
  if hasTriggeredForCurrentTarget s then Triggered else Armed.

(** A state the effect has nothing to do on.  All states the component
    reaches are settled ([run_settled]); on a settled state the effect may
    as well be run after a message that changed none of its dependencies,
    which is why [step] runs it after every message. *)
Definition settled (s : App) : Prop := geofencing s = (s, []).

(** ** Vocabulary of the statements *)

(** [targets m loc]: the message sets the target at [loc], by a tap on the
    map or by the choice of a search result. *)
Definition targets (m : Msg) (loc : GeoLocation) : Prop :=
  match m with
  | MapClick l _ | SearchSelect l _ _ => l = loc
  | _ => False
  end.

(** Messages that cannot re-arm a triggered target whose outer band ends at
    [bound]: fixes no farther than [bound] from [t], and dismissals. *)
Definition quietMsg (t : GeoLocation) (bound : R) (m : Msg) : Prop :=
  match m with
  | Fix q => calculateDistance q t <= bound
  | DismissAlarm => True
  | _ => False
  end.

(** Messages whose handler leaves [isAlarmActive] alone: all but a dismissal,
    a new target and the clearing of the target. *)
Definition keepsAlarm (m : Msg) : bool :=
  match m with
  | DismissAlarm | MapClick _ _ | SearchSelect _ _ _ | ClearTarget => false
  | _ => true
  end.

(** ** The haversine formula, as the specification names it *)

Definition radians (degrees : R) : R := degrees * PI / 180.

(** The haversine of an angle, half its versed sine. *)
Definition hav (theta : R) : R := (1 - cos theta) / 2.

(** Great-circle distance on a sphere of radius [earth], by the haversine
    formula: [2 r asin (sqrt (hav dphi + cos phi1 cos phi2 hav dlambda))]. *)
Definition haversineFormula (earth : R) (a b : GeoLocation) : R :=
  2 * earth *
  asin (sqrt (hav (radians (lat b) - radians (lat a)) +
              cos (radians (lat a)) * cos (radians (lat b)) *
              hav (radians (lng b) - radians (lng a)))).



(** The point [d] metres due north of [t], along the meridian of [t]. *)
Definition northOf (t : GeoLocation) (d : R) : GeoLocation :=
  {| lat := lat t + d * 180 / (6371000 * PI); lng := lng t |}.

(** ** Concrete states for the scenarios *)

(** A browser with a geolocation service and no watch yet. *)
Definition browser : Geolocation := {| watches := []; nextWatchId := 1 |}.

Definition mounted : App := initial (Some browser).

Definition origin : GeoLocation := {| lat := 0; lng := 0 |}.

(** The component after [Start] and a first fix at [u]: tracking, no target,
    radius setting 100. *)
Definition tracking (u : GeoLocation) : App :=
  {| hasStarted := true; permissionError := None; userLocation := Some u;
     targetLocation := None; distance := None; targetRadius := 100;
     focusRequest := None; isAlarmActive := false;
     hasTriggeredForCurrentTarget := false; watchIdRef := Some 1%Z;
     geolocation :=
       Some {| watches := [(1%Z, {| enableHighAccuracy := true;
                                    timeout := 15000; maximumAge := 0 |})];
               nextWatchId := 2 |} |}.

(** Tracking 500 m north of the origin, the target just set at the origin
    with the radius 100: armed, no alarm. *)
Definition approaching : App :=
  {| hasStarted := true; permissionError := None;
     userLocation := Some (northOf origin 500);
     targetLocation := Some (mkTarget origin 100 0);
     distance := Some 500; targetRadius := 100;
     focusRequest := None; isAlarmActive := false;
     hasTriggeredForCurrentTarget := false; watchIdRef := Some 1%Z;
     geolocation :=
       Some {| watches := [(1%Z, {| enableHighAccuracy := true;
                                    timeout := 15000; maximumAge := 0 |})];
               nextWatchId := 2 |} |}.

(** [approaching] after a fix 80 m from the target: the alarm was raised. *)
Definition arrived : App :=
  {| hasStarted := true; permissionError := None;
     userLocation := Some (northOf origin 80);
     targetLocation := Some (mkTarget origin 100 0);
     distance := Some 80; targetRadius := 100;
     focusRequest := None; isAlarmActive := true;
     hasTriggeredForCurrentTarget := true; watchIdRef := Some 1%Z;
     geolocation :=
       Some {| watches := [(1%Z, {| enableHighAccuracy := true;
                                    timeout := 15000; maximumAge := 0 |})];
               nextWatchId := 2 |} |}.

(** * The functions the statements above leave out *)

From Stdlib Require Import Lia Ascii DecimalString.

(** ** [src/utils/geo.ts]: the labels *)

(** [Math.round]: the nearest integer, a tie going up. *)
Definition Math_round (x : R) : Z := Zfloor (x + 1 / 2).

(** The text a template literal gives an integer-valued number (below 1e21):
    its decimal digits, with a minus sign if negative. *)
Definition showInt (z : Z) : string := NilZero.string_of_int (Z.to_int z).



(** The [minutes] of [formatDuration]. *)
Definition durationMinutes (seconds : R) : Z := Math_round (seconds / 60).

Definition formatDuration (seconds : R) : string :=
  let minutes := durationMinutes seconds in
  if (minutes <? 1)%Z then "< 1 min"%string
  else if (minutes <? 60)%Z then (showInt minutes ++ " min")%string
  else
    let hrs := (minutes / 60)%Z in
    let mins := Z.rem minutes 60 in
    if (0 <? mins)%Z
    then (showInt hrs ++ " hr " ++ showInt mins ++ " min")%string
    else (showInt hrs ++ " hr")%string.

Record TravelTimes := mkTravelTimes { walk : string; car : string; bus : string }.

(** Speeds in m/s: walking 1.4, car 13.9, bus 6.9. *)
Definition SPEED_WALK : R := 14 / 10.
Definition SPEED_CAR : R := 139 / 10.
Definition SPEED_BUS : R := 69 / 10.

Definition estimateTravelTime (distanceMeters : R) : TravelTimes :=
  {| walk := formatDuration (distanceMeters / SPEED_WALK);
     car := formatDuration (distanceMeters / SPEED_CAR);
     bus := formatDuration (distanceMeters / SPEED_BUS) |}.

(** ** [src/App.tsx]: mounting, rendering, audio *)

(** The cleanup of the mount effect: the watch named by the ref is cleared;
    the ref itself is left as it is. *)
Definition unmount (s : App) : App :=
  match watchIdRef s with
  | Some id =>
      setWatch (watchIdRef s) (option_map (clearWatch id) (geolocation s)) s
  | None => s
  end.

(** [!permissionError]: [null] and the empty string are falsy. *)
Definition noError (s : App) : bool :=
  match permissionError s with
  | None => true
  | Some e => String.eqb e ""
  end.

Definition hasPosition (s : App) : bool :=
  match userLocation s with Some _ => true | None => false end.

(** What [App] renders: the permission modal, its loading state, the map
    with the controls, the alarm overlay. *)
Definition showsPermissionModal (s : App) : bool :=
  negb (hasStarted s) || negb (hasPosition s).

Definition isLoading (s : App) : bool :=
  hasStarted s && negb (hasPosition s) && noError s.

Definition showsMap (s : App) : bool := hasPosition s.

Definition showsAlarm (s : App) : bool := isAlarmActive s.

(** The audio sources; the fallback is the same address as the primary. *)
Definition LOCAL_AUDIO_PATH : string :=
  "https://assets.mixkit.co/active_storage/sfx/2869/2869-preview.mp3".

Definition FALLBACK_AUDIO_URL : string :=
  "https://assets.mixkit.co/active_storage/sfx/2869/2869-preview.mp3".

(** [handleAudioError], on the [audioSrc] state: the new source. *)
Definition handleAudioError (audioSrc : string) : string :=
  if String.eqb audioSrc FALLBACK_AUDIO_URL then audioSrc
  else FALLBACK_AUDIO_URL.

(** ** The map controller of [GeofenceMap] *)

(** One run of the effect of [MapController] on the focus request it is
    given, [lastTimestamp] being the value of its ref: the place the map
    flies to, if any, and the new value of the ref. *)
Definition mapController (request : option FocusRequest) (lastTimestamp : Z)
  : option GeoLocation * Z :=
  match request with
  | Some r =>
      if (lastTimestamp <? requestedAt r)%Z
      then (Some (location r), requestedAt r)
      else (None, lastTimestamp)
  | None => (None, lastTimestamp)
  end.

(** The controller over the requests of successive renders: the flights, in
    order, and the final value of the ref. *)
Fixpoint mapFlights (requests : list (option FocusRequest)) (lastTimestamp : Z)
  : list GeoLocation * Z :=
  match requests with
  | [] => ([], lastTimestamp)
  | r :: rest =>
      let (flight, last1) := mapController r lastTimestamp in
      let (flights, last2) := mapFlights rest last1 in
      (match flight with Some l => l :: flights | None => flights end, last2)
  end.

(** ** The arrival message service *)

(** What the call of the text model comes to: a response, with or without
    text, or an exception. *)
Inductive Generation :=
| Responded (text : option string)
| Threw.

Definition defaultArrivalMessage : string :=
  "You have arrived at your destination!".

(** [generateArrivalMessage], given the outcome of the call:
    [response.text || default] in the [try], the default in the [catch]. *)
Definition generateArrivalMessage (outcome : Generation) : string :=
  match outcome with
  | Responded (Some text) =>
      if String.eqb text "" then defaultArrivalMessage else text
  | Responded None => defaultArrivalMessage
  | Threw => defaultArrivalMessage
  end.

(** ** Vocabulary of the further statements *)

(** Messages whose handler clears [isAlarmActive]. *)
Definition clearsAlarm (m : Msg) : bool := negb (keepsAlarm m).

Definition isFix (m : Msg) : bool :=
  match m with Fix _ => true | _ => false end.

Definition setsTarget (m : Msg) : bool :=
  match m with MapClick _ _ | SearchSelect _ _ _ => true | _ => false end.

(** The target carries the radius of the slider. *)
Definition radiusSynced (s : App) : Prop :=
  forall t, targetLocation s = Some t -> radius t = targetRadius s.

(** No alarm and no arrival on record without a target or without a
    position. *)
Definition flagsGrounded (s : App) : Prop :=
  userLocation s = None \/ targetLocation s = None ->
  isAlarmActive s = false /\ hasTriggeredForCurrentTarget s = false.

(** What the component keeps true of its state from mounting on. *)
Record Coherent (s : App) : Prop := mkCoherent {
  (* [distance] is that of the position to the target, or [null] *)
  coherent_distance :
    distance s =
    match userLocation s, targetLocation s with
    | Some u, Some t => Some (calculateDistance u t)
    | _, _ => None
    end;
  coherent_radius : radiusSynced s;
  coherent_flags : flagsGrounded s;
  (* a triggered target has the user within its outer band *)
  coherent_triggered :
    forall u t, userLocation s = Some u -> targetLocation s = Some t ->
    hasTriggeredForCurrentTarget s = true ->
    calculateDistance u t <= radius t + 50;
  (* within the radius, the alarm is showing or was raised and dismissed *)
  coherent_inside :
    forall u t, userLocation s = Some u -> targetLocation s = Some t ->
    calculateDistance u t <= radius t ->
    isAlarmActive s = true \/ hasTriggeredForCurrentTarget s = true
}.

(** The geolocation service and the ref: every watch has an id below the
    next one, and the ref names a registered watch. *)
Definition watchesBelow (g : Geolocation) : Prop :=
  Forall (fun w => (fst w < nextWatchId g)%Z) (watches g).

Definition registered (id : Z) (g : Geolocation) : Prop :=
  In id (map fst (watches g)).

Definition WatchCoherent (s : App) : Prop :=
  match geolocation s with
  | Some g =>
      watchesBelow g /\
      (forall id, watchIdRef s = Some id -> registered id g)
  | None => watchIdRef s = None
  end.

(** The number of messages of a run that clear the alarm. *)
Definition alarmClears (ms : list Msg) : nat :=
  List.length (filter clearsAlarm ms).

(** The arrivals the alarm flag leaves room for: none while it is set. *)
Definition alarmCredit (s : App) : nat :=
  if isAlarmActive s then 0%nat else 1%nat.

(** A watch the ref has moved away from and that is still registered. *)
Definition leaked (old : Z) (s : App) : Prop :=
  exists g, geolocation s = Some g /\ registered old g /\ watchesBelow g /\
            watchIdRef s <> Some old.
(** * Theorems *)

(** ** Facts about the reals used below *)

Section Trigonometry.

Lemma sin_half_sqr (x : R) : sin (x / 2) * sin (x / 2) = (1 - cos x) / 2.
Proof.
replace x with (2 * (x / 2)) at 3 by field.
rewrite cos_2a_sin. field.
Qed.

Lemma sin_sqr_range (x : R) : 0 <= sin x * sin x <= 1.
Proof.
pose proof (sin2_cos2 x) as H. unfold Rsqr in H.
pose proof (Rle_0_sqr (sin x)) as Hs. pose proof (Rle_0_sqr (cos x)) as Hc.
unfold Rsqr in Hs, Hc. lra.
Qed.

End Trigonometry.

(** ** The distance function *)

Section Distance.

Implicit Types a b : GeoLocation.

(** The haversine argument is a convex combination of two numbers of
    [0, 1], whatever the coordinates. *)
Lemma haversine_a_range a b : 0 <= haversine_a a b <= 1.
Proof.
unfold haversine_a; cbv zeta.
set (p1 := lat a * PI / 180). set (p2 := lat b * PI / 180).
set (dl := (lng b - lng a) * PI / 180).
replace ((lat b - lat a) * PI / 180) with (p2 - p1) by (unfold p1, p2; field).
rewrite sin_half_sqr.
pose proof (sin_sqr_range (dl / 2)) as Hh.
set (h := sin (dl / 2) * sin (dl / 2)) in *.
replace (cos p1 * cos p2 * sin (dl / 2) * sin (dl / 2))
  with (cos p1 * cos p2 * h) by (unfold h; ring).
rewrite cos_minus.
pose proof (COS_bound (p2 + p1)) as Hsum.
pose proof (COS_bound (p2 - p1)) as Hdif.
rewrite cos_plus in Hsum. rewrite cos_minus in Hdif.
set (cc := cos p1 * cos p2) in *. set (ss := sin p1 * sin p2) in *.
replace (cos p2 * cos p1) with cc in * by (unfold cc; ring).
replace (sin p2 * sin p1) with ss in * by (unfold ss; ring).
split; nra.
Qed.

End Distance.

Section Atan2.

Lemma atan2_pos (y x : R) : 0 < x -> Math.atan2 y x = atan (y / x).
Proof.
intros Hx. unfold Math.atan2. destruct (Rlt_dec 0 x); [reflexivity | lra].
Qed.

Lemma atan2_zero_pos (y : R) : 0 < y -> Math.atan2 y 0 = PI / 2.
Proof.
intros Hy. unfold Math.atan2.
destruct (Rlt_dec 0 0); [lra |].
destruct (Rlt_dec 0 y); [reflexivity | lra].
Qed.

Lemma atan2_zero_zero : Math.atan2 0 0 = 0.
Proof.
unfold Math.atan2. repeat (destruct (Rlt_dec _ _); try lra).
Qed.


(** [atan2] undoes the polar coordinates of the right half plane. *)
Lemma atan2_sin_cos (t : R) :
  - (PI / 2) < t < PI / 2 -> Math.atan2 (sin t) (cos t) = t.
Proof.
intros Ht.
assert (Hc : 0 < cos t) by (apply cos_gt_0; lra).
rewrite atan2_pos by assumption.
change (sin t / cos t) with (tan t).
apply atan_tan; assumption.
Qed.

(** On the unit circle, first quadrant, the angle is the arcsine. *)
Lemma atan2_asin (a : R) :
  0 <= a <= 1 -> Math.atan2 (sqrt a) (sqrt (1 - a)) = asin (sqrt a).
Proof.
intros [H0 H1].
destruct (Rle_lt_or_eq_dec a 1 H1) as [Hlt | Heq].
- assert (Hs : 0 < sqrt (1 - a)) by (apply sqrt_lt_R0; lra).
  rewrite atan2_pos by assumption.
  assert (Hr : 0 <= sqrt a < 1).
  { split; [apply sqrt_pos |].
    rewrite <- sqrt_1. apply sqrt_lt_1_alt. lra. }
  rewrite asin_atan by lra.
  rewrite Rsqr_sqrt by assumption. reflexivity.
- subst a. replace (1 - 1) with 0 by ring.
  rewrite sqrt_1, sqrt_0, asin_1.
  apply atan2_zero_pos. lra.
Qed.

Lemma atan2_nonneg (y x : R) : 0 <= y -> 0 <= x -> 0 <= Math.atan2 y x.
Proof.
intros Hy Hx.
destruct (Rle_lt_or_eq_dec 0 x Hx) as [Hpos | Hzero].
- rewrite atan2_pos by assumption.
assert (Hq : 0 <= y / x).
{ unfold Rdiv. apply Rmult_le_pos; [assumption |].
  left. apply Rinv_0_lt_compat. assumption. }
destruct Hq as [Hq | Hq].
+ left. rewrite <- atan_0. apply atan_increasing. assumption.
+ rewrite <- Hq, atan_0. lra.
- subst x. destruct (Rle_lt_or_eq_dec 0 y Hy) as [Hy' | Hy'].
+ rewrite atan2_zero_pos by assumption. pose proof PI_RGT_0. lra.
+ subst y. rewrite atan2_zero_zero. lra.
Qed.

End Atan2.

Section DistanceContract.

Implicit Types a b : GeoLocation.

Lemma haversine_a_self a : haversine_a a a = 0.
Proof.
unfold haversine_a; cbv zeta.
replace ((lat a - lat a) * PI / 180 / 2) with 0 by field.
replace ((lng a - lng a) * PI / 180 / 2) with 0 by field.
rewrite sin_0. ring.
Qed.


Lemma calculateDistance_self a : calculateDistance a a = 0.
Proof.
unfold calculateDistance; cbv zeta.
rewrite haversine_a_self.
replace (1 - 0) with 1 by ring.
rewrite sqrt_0, sqrt_1, atan2_pos by lra.
replace (0 / 1) with 0 by field.
rewrite atan_0. ring.
Qed.



Lemma calculateDistance_nonneg a b : 0 <= calculateDistance a b.
Proof.
unfold calculateDistance; cbv zeta.
pose proof (atan2_nonneg (sqrt (haversine_a a b)) (sqrt (1 - haversine_a a b))
              (sqrt_pos _) (sqrt_pos _)).
lra.
Qed.

End DistanceContract.

(** ** The code against the haversine formula *)

Section Haversine.

Implicit Types a b : GeoLocation.

Lemma haversine_a_hav a b :
  haversine_a a b =
  hav (radians (lat b) - radians (lat a)) +
  cos (radians (lat a)) * cos (radians (lat b)) *
  hav (radians (lng b) - radians (lng a)).
Proof.
unfold haversine_a, hav, radians; cbv zeta.
replace (lat b * PI / 180 - lat a * PI / 180)
  with ((lat b - lat a) * PI / 180) by field.
replace (lng b * PI / 180 - lng a * PI / 180)
  with ((lng b - lng a) * PI / 180) by field.
rewrite <- !sin_half_sqr. ring.
Qed.

Lemma calculateDistance_haversine a b :
  calculateDistance a b = haversineFormula 6371000 a b.
Proof.
unfold calculateDistance, haversineFormula; cbv zeta.
rewrite atan2_asin by apply haversine_a_range.
rewrite haversine_a_hav. ring.
Qed.

End Haversine.

(** ** Points at a known distance *)


Lemma calculateDistance_northOf (t : GeoLocation) (d : R) :
  0 <= d <= 6371000 -> calculateDistance (northOf t d) t = d.
Proof.
intros [Hd0 Hd1].
pose proof PI_RGT_0 as Hpi. pose proof PI2_1 as Hpi2.
unfold calculateDistance, haversine_a, northOf; cbv zeta; simpl.
replace ((lat t - (lat t + d * 180 / (6371000 * PI))) * PI / 180 / 2)
  with (- (d / 12742000)) by (field; lra).
replace ((lng t - lng t) * PI / 180 / 2) with 0 by field.
rewrite sin_0, sin_neg.
set (h := d / 12742000).
assert (Hh : 0 <= h <= 1 / 2) by (unfold h; lra).
replace (- sin h * - sin h + cos _ * cos _ * 0 * 0) with (Rsqr (sin h))
  by (unfold Rsqr; ring).
replace (1 - Rsqr (sin h)) with (Rsqr (cos h))
  by (pose proof (sin2_cos2 h); lra).
rewrite !sqrt_Rsqr_abs.
assert (Hc : 0 < cos h) by (apply cos_gt_0; lra).
assert (Hs : 0 <= sin h) by (apply sin_ge_0; lra).
rewrite (Rabs_pos_eq (sin h)) by assumption.
rewrite (Rabs_pos_eq (cos h)) by lra.
rewrite atan2_sin_cos by lra.
unfold h. field.
Qed.

(** ** Distance zero *)

Section ZeroDistance.

Implicit Types a b : GeoLocation.



End ZeroDistance.

(** ** The distance contract *)




(** ** The geofencing effect *)

(** Case analysis on the comparisons of the effect, closing the branches the
    context contradicts. *)
Ltac geo_cases :=
  repeat match goal with
         | |- context [Rle_dec ?x ?y] => destruct (Rle_dec x y); try lra
         | |- context [Rgt_dec ?x ?y] => destruct (Rgt_dec x y); try lra
         end.

Section Effect.

Implicit Types s : App.

(** After one run the effect has nothing left to do: a second run writes the
    values already there and raises no alarm. *)
Lemma geofencing_settled s :
  geofencing (fst (geofencing s)) = (fst (geofencing s), []).
Proof.
unfold geofencing at 2 3.
destruct (userLocation s) as [u |] eqn:Hu;
  [destruct (targetLocation s) as [t |] eqn:Ht |].
- cbv zeta. destruct (Rle_dec (calculateDistance u t) (radius t)) as [Hin | Hout].
  + destruct (negb (isAlarmActive s) && negb (hasTriggeredForCurrentTarget s)) eqn:Hb;
      unfold geofencing; simpl; rewrite Hu, Ht; cbv zeta; geo_cases; simpl.
    * reflexivity.
    * rewrite Hb. reflexivity.
  + destruct (Rgt_dec (calculateDistance u t) (radius t + 50));
      unfold geofencing; simpl; rewrite Hu, Ht; cbv zeta; geo_cases; reflexivity.
- unfold geofencing; simpl. rewrite Hu, Ht. reflexivity.
- unfold geofencing; simpl. rewrite Hu. reflexivity.
Qed.

Lemma runEffects_settled (n : nat) s : runEffects (S n) s = geofencing s.
Proof.
revert s. induction n as [| n IH]; intros s.
- simpl. destruct (geofencing s) as [s1 e1]. rewrite app_nil_r. reflexivity.
- change (runEffects (S (S n)) s)
    with (let (s1, e1) := geofencing s in
          let (s2, e2) := runEffects (S n) s1 in (s2, e1 ++ e2)).
  pose proof (geofencing_settled s) as Hs.
  destruct (geofencing s) as [s1 e1]. rewrite IH. simpl in Hs. rewrite Hs.
  rewrite app_nil_r. reflexivity.
Qed.

Lemma step_geofencing (m : Msg) s : step m s = geofencing (handle m s).
Proof. apply runEffects_settled. Qed.

Lemma run_cons (m : Msg) (ms : list Msg) s :
  run (m :: ms) s =
  (fst (run ms (fst (step m s))), snd (step m s) ++ snd (run ms (fst (step m s)))).
Proof.
simpl. destruct (step m s) as [s1 e1]. simpl.
destruct (run ms s1) as [s2 e2]. reflexivity.
Qed.

Lemma run_app (ms1 ms2 : list Msg) s :
  run (ms1 ++ ms2) s =
  (fst (run ms2 (fst (run ms1 s))),
   snd (run ms1 s) ++ snd (run ms2 (fst (run ms1 s)))).
Proof.
revert s. induction ms1 as [| m ms1 IH]; intros s.
- simpl. destruct (run ms2 s). reflexivity.
- rewrite <- app_comm_cons, !run_cons, IH. simpl. rewrite app_assoc. reflexivity.
Qed.

End Effect.

(** ** Settled states *)

Lemma step_settled (m : Msg) (s : App) : settled (fst (step m s)).
Proof. unfold settled. rewrite step_geofencing. apply geofencing_settled. Qed.

Lemma initial_settled (g : option Geolocation) : settled (initial g).
Proof. reflexivity. Qed.

Lemma run_settled (ms : list Msg) :
  forall s, settled s -> settled (fst (run ms s)).
Proof.
induction ms as [| m ms IH]; intros s Hs.
- exact Hs.
- rewrite run_cons. cbn [fst]. apply IH. apply step_settled.
Qed.

(** The effect reads its dependencies only: a handler that changes none of
    them, nor [distance], leaves a settled state settled, so that running
    the effect after it changes nothing. *)
Lemma settled_same_dependencies (s s' : App) :
  settled s ->
  userLocation s' = userLocation s ->
  targetLocation s' = targetLocation s ->
  isAlarmActive s' = isAlarmActive s ->
  hasTriggeredForCurrentTarget s' = hasTriggeredForCurrentTarget s ->
  distance s' = distance s ->
  settled s'.
Proof.
destruct s as [hs pe ul tl di tr fr aa ht wi ge].
destruct s' as [hs' pe' ul' tl' di' tr' fr' aa' ht' wi' ge'].
unfold settled, geofencing; simpl.
intros Hs -> -> -> -> ->.
destruct ul as [u |]; [destruct tl as [t |] |]; cbv zeta in *;
  unfold triggerAlarm, setDistance, setHasTriggeredForCurrentTarget,
         setIsAlarmActive in *; simpl in *;
  repeat match goal with
         | H : context [if ?c then _ else _] |- _ => destruct c
         end;
  simpl in *; inversion Hs; subst; try reflexivity; try discriminate.
Qed.

Section EffectCases.

Variables (s : App) (u : GeoLocation) (t : TargetLocation).
Hypothesis Huser : userLocation s = Some u.
Hypothesis Htarget : targetLocation s = Some t.

Lemma geofencing_arrival :
  calculateDistance u t <= radius t ->
  isAlarmActive s = false -> hasTriggeredForCurrentTarget s = false ->
  geofencing s = (triggerAlarm (setDistance (Some (calculateDistance u t)) s), [Arrival]).
Proof.
intros Hin Ha Hg. unfold geofencing. rewrite Huser, Htarget; cbv zeta.
geo_cases. rewrite Ha, Hg. reflexivity.
Qed.

Lemma geofencing_inside_quiet :
  calculateDistance u t <= radius t ->
  isAlarmActive s = true \/ hasTriggeredForCurrentTarget s = true ->
  geofencing s = (setDistance (Some (calculateDistance u t)) s, []).
Proof.
intros Hin Hb. unfold geofencing. rewrite Huser, Htarget; cbv zeta.
geo_cases.
destruct Hb as [Hb | Hb]; rewrite Hb; simpl; [| rewrite andb_false_r]; reflexivity.
Qed.

Lemma geofencing_deadzone :
  radius t < calculateDistance u t <= radius t + 50 ->
  geofencing s = (setDistance (Some (calculateDistance u t)) s, []).
Proof.
intros Hd. unfold geofencing. rewrite Huser, Htarget; cbv zeta.
geo_cases. reflexivity.
Qed.

Lemma geofencing_rearm :
  calculateDistance u t > radius t + 50 ->
  geofencing s =
  (setHasTriggeredForCurrentTarget false (setDistance (Some (calculateDistance u t)) s), []).
Proof.
intros Hd. unfold geofencing. rewrite Huser, Htarget; cbv zeta.
geo_cases. reflexivity.
Qed.

End EffectCases.

Section EffectFrame.

Implicit Types s : App.

(** The effect writes [distance], [isAlarmActive] and
    [hasTriggeredForCurrentTarget] only. *)
Lemma geofencing_frame s :
  let s' := fst (geofencing s) in
  userLocation s' = userLocation s /\
  targetLocation s' = targetLocation s /\
  targetRadius s' = targetRadius s /\
  permissionError s' = permissionError s /\
  watchIdRef s' = watchIdRef s /\
  geolocation s' = geolocation s /\
  focusRequest s' = focusRequest s /\
  hasStarted s' = hasStarted s.
Proof.
unfold geofencing.
destruct (userLocation s) eqn:Hu; [destruct (targetLocation s) eqn:Ht |];
  cbv zeta;
  repeat match goal with
         | |- context [if ?c then _ else _] => destruct c
         end;
  simpl; rewrite ?Hu, ?Ht; repeat split; reflexivity.
Qed.

(** Without a position or without a target the effect only clears
    [distance]. *)
Lemma geofencing_idle s :
  userLocation s = None \/ targetLocation s = None ->
  geofencing s = (setDistance None s, []).
Proof.
intros [H | H]; unfold geofencing; rewrite H; [reflexivity |].
destruct (userLocation s); reflexivity.
Qed.

(** The trigger is guarded by both flags. *)
Lemma geofencing_active_silent s :
  isAlarmActive s = true ->
  snd (geofencing s) = [] /\ isAlarmActive (fst (geofencing s)) = true.
Proof.
intros Ha. unfold geofencing.
destruct (userLocation s); [destruct (targetLocation s) |];
  cbv zeta; rewrite ?Ha; simpl;
  repeat match goal with
         | |- context [if ?c then _ else _] => destruct c
         end;
  simpl; auto.
Qed.

Lemma geofencing_triggered_silent s :
  hasTriggeredForCurrentTarget s = true ->
  snd (geofencing s) = [] /\
  isAlarmActive (fst (geofencing s)) = isAlarmActive s.
Proof.
intros Hg. unfold geofencing.
destruct (userLocation s); [destruct (targetLocation s) |];
  cbv zeta; rewrite ?Hg, ?andb_false_r; simpl;
  repeat match goal with
         | |- context [if ?c then _ else _] => destruct c
         end;
  simpl; auto.
Qed.

(** The writes of the effect that are not an arrival never touch
    [isAlarmActive]. *)
Lemma geofencing_alarm_flag s :
  snd (geofencing s) = [] ->
  isAlarmActive (fst (geofencing s)) = isAlarmActive s.
Proof.
unfold geofencing.
destruct (userLocation s); [destruct (targetLocation s) |];
  cbv zeta;
  repeat match goal with
         | |- context [if ?c then _ else _] => destruct c
         end;
  simpl; intros H; solve [reflexivity | discriminate H].
Qed.

End EffectFrame.

(** ** A position fix *)

Section FixStep.

Variables (s : App) (p : GeoLocation) (t : TargetLocation).
Hypothesis Htarget : targetLocation s = Some t.

Lemma fix_arrival :
  calculateDistance p t <= radius t ->
  isAlarmActive s = false -> hasTriggeredForCurrentTarget s = false ->
  step (Fix p) s =
  (triggerAlarm (setDistance (Some (calculateDistance p t)) (onPosition p s)),
   [Arrival]).
Proof.
intros. rewrite step_geofencing. simpl handle.
apply geofencing_arrival; simpl; auto.
Qed.

Lemma fix_inside_quiet :
  calculateDistance p t <= radius t ->
  isAlarmActive s = true \/ hasTriggeredForCurrentTarget s = true ->
  step (Fix p) s =
  (setDistance (Some (calculateDistance p t)) (onPosition p s), []).
Proof.
intros. rewrite step_geofencing. simpl handle.
apply geofencing_inside_quiet; simpl; auto.
Qed.

Lemma fix_deadzone :
  radius t < calculateDistance p t <= radius t + 50 ->
  step (Fix p) s =
  (setDistance (Some (calculateDistance p t)) (onPosition p s), []).
Proof.
intros. rewrite step_geofencing. simpl handle.
apply geofencing_deadzone; simpl; auto.
Qed.

Lemma fix_rearm :
  calculateDistance p t > radius t + 50 ->
  step (Fix p) s =
  (setHasTriggeredForCurrentTarget false
     (setDistance (Some (calculateDistance p t)) (onPosition p s)), []).
Proof.
intros. rewrite step_geofencing. simpl handle.
apply geofencing_rearm; simpl; auto.
Qed.

End FixStep.

(** ** Dismissing the alarm *)

Section DismissStep.

Variables (s : App) (u : GeoLocation) (t : TargetLocation).
Hypothesis Huser : userLocation s = Some u.
Hypothesis Htarget : targetLocation s = Some t.

(** Dismissing while triggered and not beyond the outer band changes the
    alarm flag only. *)
Lemma dismiss_triggered :
  hasTriggeredForCurrentTarget s = true ->
  calculateDistance u t <= radius t + 50 ->
  step DismissAlarm s =
  (setDistance (Some (calculateDistance u t)) (handleDismissAlarm s), []).
Proof.
intros Hg Hd. rewrite step_geofencing. simpl handle.
destruct (Rle_dec (calculateDistance u t) (radius t)).
- apply geofencing_inside_quiet; simpl; auto.
- apply geofencing_deadzone; simpl; auto. lra.
Qed.

(** Dismissing in the dead zone raises nothing and keeps the arming. *)
Lemma dismiss_deadzone :
  radius t < calculateDistance u t <= radius t + 50 ->
  step DismissAlarm s =
  (setDistance (Some (calculateDistance u t)) (handleDismissAlarm s), []).
Proof.
intros Hd. rewrite step_geofencing. simpl handle.
apply geofencing_deadzone; simpl; auto.
Qed.

(** Dismissing beyond the outer band raises nothing. *)
Lemma dismiss_rearm :
  calculateDistance u t > radius t + 50 ->
  step DismissAlarm s =
  (setHasTriggeredForCurrentTarget false
     (setDistance (Some (calculateDistance u t)) (handleDismissAlarm s)), []).
Proof.
intros Hd. rewrite step_geofencing. simpl handle.
apply geofencing_rearm; simpl; auto.
Qed.

(** Dismissing while armed and inside the radius: the alarm is raised
    again at once (the state arises when the user left the outer band and
    came back while the alarm was still showing). *)
Lemma dismiss_inside_armed :
  calculateDistance u t <= radius t ->
  hasTriggeredForCurrentTarget s = false ->
  step DismissAlarm s =
  (triggerAlarm
     (setDistance (Some (calculateDistance u t)) (handleDismissAlarm s)),
   [Arrival]).
Proof.
intros Hd Hg. rewrite step_geofencing. simpl handle.
apply geofencing_arrival; simpl; auto.
Qed.

End DismissStep.

(** On a settled state whose target is triggered, the state any alarm is
    raised in, the whole step of a dismissal, effect included, is the
    handler: only the alarm flag changes, and nothing is raised. *)
Lemma dismiss_step_frame (s : App) :
  settled s -> armState s = Triggered ->
  step DismissAlarm s = (handleDismissAlarm s, []).
Proof.
rewrite step_geofencing.
destruct s as [hs pe ul tl di tr fr aa ht wi ge].
unfold settled, armState, geofencing, handle, handleDismissAlarm; simpl.
intros Hs Ht. destruct ht; [| discriminate Ht].
destruct ul as [u |]; [destruct tl as [t |] |]; cbv zeta in *;
  unfold triggerAlarm, setDistance, setHasTriggeredForCurrentTarget,
         setIsAlarmActive in *; simpl in *;
  rewrite ?andb_false_r in *;
  repeat match goal with
         | H : context [if ?c then _ else _] |- _ => destruct c
         end;
  simpl in *; inversion Hs; subst; try reflexivity; try discriminate.
Qed.

(** On a settled state a dismissal that finds the target triggered, or no
    target, or the position outside the radius, is the handler alone. *)
Lemma dismiss_step_quiet (s : App) :
  settled s ->
  hasTriggeredForCurrentTarget s = true \/ targetLocation s = None \/
  (forall u t, userLocation s = Some u -> targetLocation s = Some t ->
     radius t < calculateDistance u t) ->
  step DismissAlarm s = (handleDismissAlarm s, []).
Proof.
intros Hs Hcase. rewrite step_geofencing.
destruct s as [hs pe ul tl di tr fr aa ht wi ge].
unfold settled, geofencing, handle, handleDismissAlarm in *; simpl in *.
destruct ul as [u |]; [destruct tl as [t |] |]; cbv zeta in *;
  unfold triggerAlarm, setDistance, setHasTriggeredForCurrentTarget,
         setIsAlarmActive in *; simpl in *;
  try (inversion Hs; subst; reflexivity).
destruct aa, ht;
  destruct (Rle_dec (calculateDistance u t) (radius t)) as [Hin | Hout];
  try destruct (Rgt_dec (calculateDistance u t) (radius t + 50));
  simpl in *; inversion Hs; subst; try reflexivity;
  destruct Hcase as [Hc | [Hc | Hc]];
  solve [ discriminate Hc
        | specialize (Hc u t eq_refl eq_refl); lra ].
Qed.

(** A settled state whose target is armed with the position within the
    radius has its alarm showing; dismissing it raises the alarm again, so
    that the one field the whole step changes is the arming. *)
Lemma dismiss_step_again (s : App) (u : GeoLocation) (t : TargetLocation) :
  settled s ->
  userLocation s = Some u -> targetLocation s = Some t ->
  hasTriggeredForCurrentTarget s = false ->
  calculateDistance u t <= radius t ->
  isAlarmActive s = true /\
  step DismissAlarm s = (setHasTriggeredForCurrentTarget true s, [Arrival]).
Proof.
intros Hs Hu Ht Hg Hin. rewrite step_geofencing.
destruct s as [hs pe ul tl di tr fr aa ht wi ge].
unfold settled, geofencing, handle, handleDismissAlarm in *; simpl in *.
subst ul tl ht. cbv zeta in *.
unfold triggerAlarm, setDistance, setHasTriggeredForCurrentTarget,
       setIsAlarmActive in *; simpl in *.
destruct (Rle_dec (calculateDistance u t) (radius t)); [| lra].
destruct aa; simpl in *; inversion Hs; subst.
split; reflexivity.
Qed.

(** ** Runs of fixes *)

Section Runs.

Variable t : TargetLocation.

(** Armed and silent, fixes outside the radius raise nothing and leave the
    target armed. *)
Lemma armed_outside_quiet (outs : list GeoLocation) :
  forall s,
    targetLocation s = Some t ->
    hasTriggeredForCurrentTarget s = false ->
    isAlarmActive s = false ->
    Forall (fun q => radius t < calculateDistance q t) outs ->
    snd (run (map Fix outs) s) = [] /\
    targetLocation (fst (run (map Fix outs) s)) = Some t /\
    hasTriggeredForCurrentTarget (fst (run (map Fix outs) s)) = false /\
    isAlarmActive (fst (run (map Fix outs) s)) = false.
Proof.
induction outs as [| q outs IH]; intros s Ht Hg Ha Hall.
- simpl. auto.
- inversion Hall as [| ? ? Hq Hrest]; subst.
  change (map Fix (q :: outs)) with (Fix q :: map Fix outs).
  rewrite run_cons. cbn [fst snd].
  assert (Hstep : snd (step (Fix q) s) = [] /\
                  targetLocation (fst (step (Fix q) s)) = Some t /\
                  hasTriggeredForCurrentTarget (fst (step (Fix q) s)) = false /\
                  isAlarmActive (fst (step (Fix q) s)) = false).
  { destruct (Rgt_dec (calculateDistance q t) (radius t + 50)).
    - rewrite (fix_rearm s q t) by assumption. simpl. auto.
    - rewrite (fix_deadzone s q t) by (try assumption; lra). simpl. auto. }
  destruct Hstep as (He & Ht' & Hg' & Ha').
  rewrite He. simpl.
  apply IH; assumption.
Qed.

(** Triggered and within the outer band, fixes within the band and
    dismissals raise nothing and leave the target triggered. *)
Lemma triggered_quiet (later : list Msg) :
  forall s u,
    targetLocation s = Some t ->
    userLocation s = Some u ->
    calculateDistance u t <= radius t + 50 ->
    hasTriggeredForCurrentTarget s = true ->
    Forall (quietMsg t (radius t + 50)) later ->
    snd (run later s) = [] /\
    targetLocation (fst (run later s)) = Some t /\
    hasTriggeredForCurrentTarget (fst (run later s)) = true.
Proof.
induction later as [| m later IH]; intros s u Ht Hu Hd Hg Hall.
- simpl. auto.
- inversion Hall as [| ? ? Hm Hrest]; subst.
  rewrite run_cons. cbn [fst snd].
  destruct m; simpl in Hm; try contradiction.
  + (* a fix within the band *)
    assert (Hstep : step (Fix coords) s =
                    (setDistance (Some (calculateDistance coords t))
                       (onPosition coords s), [])).
    { destruct (Rle_dec (calculateDistance coords t) (radius t)).
      - apply fix_inside_quiet; auto.
      - apply fix_deadzone; auto. lra. }
    rewrite Hstep. simpl.
    apply (IH _ coords); simpl; auto.
  + (* a dismissal *)
    rewrite (dismiss_triggered s u t) by assumption. simpl.
    apply (IH _ u); simpl; auto.
Qed.

End Runs.

(** The watch operations leave the alarm flag alone. *)
Lemma attemptWatch_alarm (b : bool) (s : App) :
  isAlarmActive (attemptWatch b s) = isAlarmActive s.
Proof. unfold attemptWatch. destruct (geolocation s); reflexivity. Qed.

Lemma startWatchingLocation_alarm (b : bool) (s : App) :
  isAlarmActive (startWatchingLocation b s) = isAlarmActive s.
Proof.
unfold startWatchingLocation.
destruct (watchIdRef s); simpl; destruct (geolocation s); simpl;
  rewrite ?attemptWatch_alarm; reflexivity.
Qed.

(** While the alarm is active nothing is raised, and nothing but a dismissal,
    a new target or the clearing of the target ends it. *)
Lemma handle_keepsAlarm (m : Msg) (s : App) :
  keepsAlarm m = true -> isAlarmActive (handle m s) = isAlarmActive s.
Proof.
destruct m; simpl; try discriminate; intros _; try reflexivity.
- (* Start *)
  unfold handleStart. rewrite startWatchingLocation_alarm. reflexivity.
- (* WatchError *)
  unfold onPositionError.
  destruct (isHighAccuracy && _); [apply attemptWatch_alarm | reflexivity].
- (* RadiusChange *)
  unfold handleRadiusChange. destruct (targetLocation s); reflexivity.
- (* CenterLocation *)
  unfold handleCenterLocation. destruct (userLocation s); reflexivity.
Qed.

Lemma active_run_silent (ms : list Msg) :
  forall s,
    isAlarmActive s = true ->
    Forall (fun m => keepsAlarm m = true) ms ->
    snd (run ms s) = [] /\ isAlarmActive (fst (run ms s)) = true.
Proof.
induction ms as [| m ms IH]; intros s Ha Hall.
- simpl. auto.
- inversion Hall as [| ? ? Hm Hrest]; subst.
  rewrite run_cons. cbn [fst snd].
  rewrite step_geofencing.
  destruct (geofencing_active_silent (handle m s)) as [He Ha'].
  { rewrite handle_keepsAlarm; assumption. }
  rewrite He. simpl. apply IH; assumption.
Qed.

(** ** Setting the target *)

Section SetTarget.

Variables (m : Msg) (loc : GeoLocation) (s : App).
Hypothesis Hm : targets m loc.

Lemma handle_targets :
  exists now,
    targetLocation (handle m s) = Some (mkTarget loc (targetRadius s) now) /\
    hasTriggeredForCurrentTarget (handle m s) = false /\
    isAlarmActive (handle m s) = false /\
    userLocation (handle m s) = userLocation s.
Proof.
destruct m; simpl in Hm; try contradiction; subst; exists now; simpl; auto.
Qed.

(** With no position within the radius the new target stays armed. *)
Lemma setTarget_outside :
  (forall u, userLocation s = Some u -> targetRadius s < calculateDistance u loc) ->
  snd (step m s) = [] /\
  exists now,
    targetLocation (fst (step m s)) = Some (mkTarget loc (targetRadius s) now) /\
    hasTriggeredForCurrentTarget (fst (step m s)) = false /\
    isAlarmActive (fst (step m s)) = false.
Proof.
intros Hout. rewrite step_geofencing.
destruct handle_targets as (now & Ht & Hg & Ha & Hu).
destruct (userLocation s) as [u |] eqn:Hus.
- specialize (Hout u eq_refl).
  destruct (Rgt_dec (calculateDistance u loc) (targetRadius s + 50)).
  + rewrite (geofencing_rearm _ u _ Hu Ht) by (simpl; lra).
    simpl. rewrite Ht, Ha.
    split; [reflexivity |]. exists now. repeat split; reflexivity.
  + rewrite (geofencing_deadzone _ u _ Hu Ht) by (simpl; lra).
    simpl. rewrite Ht, Ha, Hg.
    split; [reflexivity |]. exists now. repeat split; reflexivity.
- rewrite geofencing_idle by auto. simpl. rewrite Ht, Ha, Hg.
  split; [reflexivity |]. exists now. repeat split; reflexivity.
Qed.

(** With the known position within the radius the alarm is raised as the
    target is set. *)
Lemma setTarget_inside (u : GeoLocation) :
  userLocation s = Some u ->
  calculateDistance u loc <= targetRadius s ->
  snd (step m s) = [Arrival] /\
  exists now,
    targetLocation (fst (step m s)) = Some (mkTarget loc (targetRadius s) now) /\
    userLocation (fst (step m s)) = Some u /\
    hasTriggeredForCurrentTarget (fst (step m s)) = true /\
    isAlarmActive (fst (step m s)) = true.
Proof.
intros Hus Hin. rewrite step_geofencing.
destruct handle_targets as (now & Ht & Hg & Ha & Hu).
rewrite Hus in Hu.
rewrite (geofencing_arrival _ u _ Hu Ht) by (simpl; auto).
simpl. rewrite Ht, Hu.
split; [reflexivity |]. exists now. repeat split; reflexivity.
Qed.

End SetTarget.

(** ** At most one arrival per arming *)

(** C1, as the code has it.  A target is set on a state whose radius setting
    is [targetRadius s]; [outs] are fixes outside the radius, [p] is the first
    fix within it, [later] are fixes no farther than the outer band
    (radius + 50) and dismissals, in any order.  If no position within the
    radius is known when the target is set, setting it and the fixes outside
    raise nothing, the fix [p] raises exactly one arrival, and [later] raises
    none.  If the known position is within the radius already, the one
    arrival is raised as the target is set, and [later] raises none. *)
Theorem arrival_at_most_once
    (s : App) (setter : Msg) (loc : GeoLocation)
    (outs : list GeoLocation) (p : GeoLocation) (later : list Msg) :
  targets setter loc ->
  Forall (fun q => targetRadius s < calculateDistance q loc) outs ->
  calculateDistance p loc <= targetRadius s ->
  Forall (quietMsg loc (targetRadius s + 50)) later ->
  ((forall u, userLocation s = Some u ->
              targetRadius s < calculateDistance u loc) ->
   let armed := fst (run (setter :: map Fix outs) s) in
   snd (run (setter :: map Fix outs) s) = [] /\
   snd (step (Fix p) armed) = [Arrival] /\
   snd (run later (fst (step (Fix p) armed))) = [])
  /\
  (forall u, userLocation s = Some u ->
             calculateDistance u loc <= targetRadius s ->
   snd (step setter s) = [Arrival] /\
   snd (run later (fst (step setter s))) = []).
Proof.
intros Hset Houts Hp Hlater. split.
- intros Haway armed.
  destruct (setTarget_outside setter loc s Hset Haway)
    as (He & now & Ht & Hg & Ha).
  set (t := mkTarget loc (targetRadius s) now) in *.
  destruct (armed_outside_quiet t outs (fst (step setter s)) Ht Hg Ha Houts)
    as (He' & Ht' & Hg' & Ha').
  assert (Harmed : armed = fst (run (map Fix outs) (fst (step setter s)))).
  { unfold armed. rewrite run_cons. reflexivity. }
  rewrite run_cons. cbn [snd]. rewrite He, He'. split; [reflexivity |].
  rewrite Harmed.
  rewrite (fix_arrival _ p t Ht' Hp Ha' Hg'). cbn [fst snd].
  split; [reflexivity |].
  apply (triggered_quiet t later _ p); simpl; auto.
  change (calculateDistance p loc <= targetRadius s + 50). lra.
- intros u Hu Hin.
  destruct (setTarget_inside setter loc s Hset u Hu Hin)
    as (He & now & Ht & Hu' & Hg & Ha).
  split; [assumption |].
  apply (triggered_quiet (mkTarget loc (targetRadius s) now) later _ u);
    simpl; auto.
  lra.
Qed.

Lemma run_tracking (u : GeoLocation) : run [Start; Fix u] mounted = (tracking u, []).
Proof.
rewrite !run_cons, !step_geofencing.
rewrite (geofencing_idle (handle Start mounted)) by (left; reflexivity).
cbn [fst snd].
rewrite geofencing_idle by (right; reflexivity).
reflexivity.
Qed.

Lemma tracking_reached (u : GeoLocation) (ms : list Msg) :
  run (Start :: Fix u :: ms) mounted = run ms (tracking u).
Proof.
change (Start :: Fix u :: ms) with ([Start; Fix u] ++ ms).
rewrite run_app, run_tracking. simpl. destruct (run ms (tracking u)); reflexivity.
Qed.

Lemma arrival_at_most_once_witness :
  snd (step (Fix (northOf origin 80))
         (fst (run [MapClick origin 0; Fix (northOf origin 150)]
                (tracking (northOf origin 500))))) = [Arrival].
Proof.
apply (arrival_at_most_once (tracking (northOf origin 500)) (MapClick origin 0)
         origin [northOf origin 150] (northOf origin 80)
         [Fix (northOf origin 40); DismissAlarm; Fix (northOf origin 120)]).
- reflexivity.
- repeat constructor. rewrite calculateDistance_northOf; simpl; lra.
- rewrite calculateDistance_northOf; simpl; lra.
- repeat constructor; simpl; rewrite calculateDistance_northOf; lra.
- intros u Hu. injection Hu as <-. rewrite calculateDistance_northOf; simpl; lra.
Defined.

(** C1 as stated fails: the user taps the map at the own position; the
    arrival is raised by the tap, and the first fix within the radius of the
    freshly set target raises none. *)
Lemma first_fix_within_raises_nothing :
  let s := fst (run [Start; Fix origin; MapClick origin 0] mounted) in
  targetLocation s = Some (mkTarget origin 100 0) /\
  calculateDistance origin origin <= 100 /\
  snd (run [Start; Fix origin; MapClick origin 0] mounted) = [Arrival] /\
  snd (step (Fix origin) s) = [] /\
  List.length (snd (step (Fix origin) s)) <> 1%nat.
Proof.
rewrite tracking_reached. cbv zeta.
rewrite run_cons. simpl (run [] _). cbn [fst snd]. rewrite app_nil_r.
assert (Hstep : step (MapClick origin 0) (tracking origin) =
                (triggerAlarm
                   (setDistance (Some (calculateDistance origin origin))
                      (handleSetTarget origin 0 (tracking origin))), [Arrival])).
{ rewrite step_geofencing. simpl handle.
  apply (geofencing_arrival _ origin (mkTarget origin 100 0)); simpl; auto.
  rewrite calculateDistance_self. lra. }
rewrite Hstep. cbn [fst snd].
assert (Hfix : snd (step (Fix origin)
                      (triggerAlarm
                         (setDistance (Some (calculateDistance origin origin))
                            (handleSetTarget origin 0 (tracking origin))))) = []).
{ rewrite (fix_inside_quiet _ origin (mkTarget origin 100 0)); simpl; auto.
  rewrite calculateDistance_self. lra. }
rewrite Hfix. simpl. rewrite calculateDistance_self.
repeat split; try reflexivity; try lra. discriminate.
Qed.

(** ** Evaluating a run message by message *)

Arguments calculateDistance : simpl never.

Section RunEquations.

Variables (m : Msg) (ms : list Msg) (s s1 : App) (e1 : list Event).
Hypothesis Hstep : step m s = (s1, e1).

Lemma events_cons : snd (run (m :: ms) s) = e1 ++ snd (run ms s1).
Proof. rewrite run_cons, Hstep. reflexivity. Qed.

Lemma state_cons : fst (run (m :: ms) s) = fst (run ms s1).
Proof. rewrite run_cons, Hstep. reflexivity. Qed.

End RunEquations.

Lemma events_nil (s : App) : snd (run [] s) = [].
Proof. reflexivity. Qed.

Lemma state_nil (s : App) : fst (run [] s) = s.
Proof. reflexivity. Qed.

(** Side conditions of a step: projections of the state, flags, and
    distances, those of the points [northOf] included. *)
Ltac geo_side :=
  simpl; auto;
  rewrite ?calculateDistance_northOf, ?calculateDistance_self by lra; lra.

(** Rewrite the first message of the run in the goal with the equation the
    tactic [tac] derives for its step. *)
Ltac run_with tac :=
  match goal with
  | |- context [run (?m :: ?ms) ?s] =>
      let H := fresh "Hstep" in
      eassert (H : step m s = _) by (tac; solve [geo_side]);
      rewrite ?(events_cons m ms s _ _ H), ?(state_cons m ms s _ _ H);
      clear H
  end.

(** A fix, for a run whose target is [t]: the step is decided from the
    distances and flags known in the context. *)
Ltac run_fix t :=
  first [ run_with ltac:(apply (fix_arrival _ _ t))
        | run_with ltac:(apply (fix_inside_quiet _ _ t))
        | run_with ltac:(apply (fix_deadzone _ _ t))
        | run_with ltac:(apply (fix_rearm _ _ t)) ].

(** A dismissal, the last known position being [u]. *)
Ltac run_dismiss u t :=
  first [ run_with ltac:(apply (dismiss_triggered _ u t))
        | run_with ltac:(apply (dismiss_inside_armed _ u t))
        | run_with ltac:(apply (dismiss_deadzone _ u t))
        | run_with ltac:(apply (dismiss_rearm _ u t)) ].

Ltac run_done := rewrite ?events_nil, ?state_nil.

(** ** The re-trigger scenario *)

Section Retrigger.

Variables (s : App) (t : TargetLocation) (p1 p2 p3 p4 : GeoLocation).
Hypothesis Htarget : targetLocation s = Some t.
Hypothesis Hradius : radius t = 100.
Hypothesis Harmed : hasTriggeredForCurrentTarget s = false.
Hypothesis Hsilent : isAlarmActive s = false.
Hypothesis H1 : calculateDistance p1 t = 50.
Hypothesis H2 : calculateDistance p2 t = 120.
Hypothesis H3 : calculateDistance p3 t = 200.
Hypothesis H4 : calculateDistance p4 t = 90.

(** Without a dismissal the alarm is still active at the fourth fix, and the
    fix raises nothing although the target is armed again. *)
Lemma retrigger_undismissed :
  snd (run [Fix p1; Fix p2; Fix p3; Fix p4] s) = [Arrival].
Proof.
run_fix t. run_fix t. run_fix t. run_fix t. run_done. reflexivity.
Qed.

Lemma retrigger_rearmed :
  armState (fst (run [Fix p1; Fix p2; Fix p3] s)) = Armed /\
  isAlarmActive (fst (run [Fix p1; Fix p2; Fix p3] s)) = true.
Proof.
run_fix t. run_fix t. run_fix t. run_done. split; reflexivity.
Qed.

Lemma retrigger_dismissed_first :
  snd (run [Fix p1; DismissAlarm; Fix p2; Fix p3; Fix p4] s) = [Arrival; Arrival].
Proof.
run_fix t. run_dismiss p1 t. run_fix t. run_fix t. run_fix t. run_done.
reflexivity.
Qed.

Lemma retrigger_dismissed_second :
  snd (run [Fix p1; Fix p2; DismissAlarm; Fix p3; Fix p4] s) = [Arrival; Arrival].
Proof.
run_fix t. run_fix t. run_dismiss p2 t. run_fix t. run_fix t. run_done.
reflexivity.
Qed.

Lemma retrigger_dismissed_third :
  snd (run [Fix p1; Fix p2; Fix p3; DismissAlarm; Fix p4] s) = [Arrival; Arrival].
Proof.
run_fix t. run_fix t. run_fix t. run_dismiss p3 t. run_fix t. run_done.
reflexivity.
Qed.

(** Dismissed only after the fourth fix, the alarm is raised again by the
    dismissal itself: the target was armed and the user within the radius. *)
Lemma retrigger_dismissed_last :
  snd (run [Fix p1; Fix p2; Fix p3; Fix p4; DismissAlarm] s) = [Arrival; Arrival].
Proof.
run_fix t. run_fix t. run_fix t. run_fix t. run_dismiss p4 t. run_done.
reflexivity.
Qed.

End Retrigger.

(** ** A change of the radius *)

Section RadiusStep.

Variables (s : App) (u : GeoLocation) (t : TargetLocation) (r : R).
Hypothesis Huser : userLocation s = Some u.
Hypothesis Htarget : targetLocation s = Some t.

Lemma handleRadiusChange_target :
  targetLocation (handleRadiusChange r s) =
  Some (mkTarget (position t) r (timestamp t)).
Proof. unfold handleRadiusChange. rewrite Htarget. simpl. rewrite Htarget. reflexivity. Qed.

Lemma handleRadiusChange_user :
  userLocation (handleRadiusChange r s) = Some u.
Proof. unfold handleRadiusChange. rewrite Htarget. simpl. assumption. Qed.

Lemma handleRadiusChange_flags :
  isAlarmActive (handleRadiusChange r s) = isAlarmActive s /\
  hasTriggeredForCurrentTarget (handleRadiusChange r s) =
  hasTriggeredForCurrentTarget s.
Proof. unfold handleRadiusChange. rewrite Htarget. simpl. auto. Qed.

Lemma radius_arrival :
  calculateDistance u t <= r ->
  isAlarmActive s = false -> hasTriggeredForCurrentTarget s = false ->
  step (RadiusChange r) s =
  (triggerAlarm
     (setDistance (Some (calculateDistance u t)) (handleRadiusChange r s)),
   [Arrival]).
Proof.
intros Hd Ha Hg. rewrite step_geofencing. simpl handle.
destruct handleRadiusChange_flags as [Ha' Hg'].
apply (geofencing_arrival _ u (mkTarget (position t) r (timestamp t)));
  auto using handleRadiusChange_user, handleRadiusChange_target; congruence.
Qed.

Lemma radius_inside_quiet :
  calculateDistance u t <= r ->
  isAlarmActive s = true \/ hasTriggeredForCurrentTarget s = true ->
  step (RadiusChange r) s =
  (setDistance (Some (calculateDistance u t)) (handleRadiusChange r s), []).
Proof.
intros Hd Hb. rewrite step_geofencing. simpl handle.
destruct handleRadiusChange_flags as [Ha' Hg'].
apply (geofencing_inside_quiet _ u (mkTarget (position t) r (timestamp t)));
  auto using handleRadiusChange_user, handleRadiusChange_target.
rewrite Ha', Hg'. assumption.
Qed.

Lemma radius_deadzone :
  r < calculateDistance u t <= r + 50 ->
  step (RadiusChange r) s =
  (setDistance (Some (calculateDistance u t)) (handleRadiusChange r s), []).
Proof.
intros Hd. rewrite step_geofencing. simpl handle.
apply (geofencing_deadzone _ u (mkTarget (position t) r (timestamp t)));
  auto using handleRadiusChange_user, handleRadiusChange_target.
Qed.

Lemma radius_rearm :
  calculateDistance u t > r + 50 ->
  step (RadiusChange r) s =
  (setHasTriggeredForCurrentTarget false
     (setDistance (Some (calculateDistance u t)) (handleRadiusChange r s)), []).
Proof.
intros Hd. rewrite step_geofencing. simpl handle.
apply (geofencing_rearm _ u (mkTarget (position t) r (timestamp t)));
  auto using handleRadiusChange_user, handleRadiusChange_target.
Qed.

End RadiusStep.

(** Without a known position a change of the radius only updates the
    target. *)
Lemma radius_no_position (s : App) (r : R) :
  userLocation s = None ->
  step (RadiusChange r) s = (setDistance None (handleRadiusChange r s), []).
Proof.
intros Hu. rewrite step_geofencing. simpl handle.
apply geofencing_idle. left.
unfold handleRadiusChange. destruct (targetLocation s); simpl; assumption.
Qed.

Ltac run_radius u t :=
  first [ run_with ltac:(apply (radius_arrival _ u t))
        | run_with ltac:(apply (radius_inside_quiet _ u t))
        | run_with ltac:(apply (radius_deadzone _ u t))
        | run_with ltac:(apply (radius_rearm _ u t)) ].

(** Any message, the position and the target after its handler being [u]
    and [t]; and a message that leaves the component without target. *)
Ltac run_geo u t :=
  first
    [ run_with ltac:(rewrite step_geofencing; simpl handle;
                     apply (geofencing_arrival _ u t))
    | run_with ltac:(rewrite step_geofencing; simpl handle;
                     apply (geofencing_inside_quiet _ u t))
    | run_with ltac:(rewrite step_geofencing; simpl handle;
                     apply (geofencing_deadzone _ u t))
    | run_with ltac:(rewrite step_geofencing; simpl handle;
                     apply (geofencing_rearm _ u t)) ].

Ltac run_idle :=
  run_with ltac:(rewrite step_geofencing; simpl handle; apply geofencing_idle).

(** C2, as the code has it.  For a target of radius 100, armed and with no
    alarm showing, fixes at 50 m, 120 m, 200 m and 90 m with no other
    command in between raise one arrival in total: the third fix re-arms the
    target, but the alarm of the first is still active at the fourth.  With
    the alarm dismissed anywhere between the first and the fourth fix the
    total is two. *)
Theorem retrigger_needs_dismissal
    (s : App) (t : TargetLocation) (p1 p2 p3 p4 : GeoLocation) :
  targetLocation s = Some t ->
  radius t = 100 ->
  hasTriggeredForCurrentTarget s = false ->
  isAlarmActive s = false ->
  calculateDistance p1 t = 50 ->
  calculateDistance p2 t = 120 ->
  calculateDistance p3 t = 200 ->
  calculateDistance p4 t = 90 ->
  arrivals [Fix p1; Fix p2; Fix p3; Fix p4] s = 1%nat /\
  armState (fst (run [Fix p1; Fix p2; Fix p3] s)) = Armed /\
  arrivals [Fix p1; DismissAlarm; Fix p2; Fix p3; Fix p4] s = 2%nat /\
  arrivals [Fix p1; Fix p2; DismissAlarm; Fix p3; Fix p4] s = 2%nat /\
  arrivals [Fix p1; Fix p2; Fix p3; DismissAlarm; Fix p4] s = 2%nat.
Proof.
intros Ht Hr Hg Ha H1 H2 H3 H4. unfold arrivals.
rewrite (retrigger_undismissed s t p1 p2 p3 p4) by assumption.
rewrite (retrigger_dismissed_first s t p1 p2 p3 p4) by assumption.
rewrite (retrigger_dismissed_second s t p1 p2 p3 p4) by assumption.
rewrite (retrigger_dismissed_third s t p1 p2 p3 p4) by assumption.
destruct (retrigger_rearmed s t p1 p2 p3) as [Harm _]; try assumption.
repeat split; try reflexivity. assumption.
Qed.

(** The component tracking 500 m north of the origin, the target just set at
    the origin with the radius 100. *)
Lemma approaching_reached :
  fst (run [Start; Fix (northOf origin 500); MapClick origin 0] mounted) =
    approaching /\
  snd (run [Start; Fix (northOf origin 500); MapClick origin 0] mounted) = [].
Proof.
rewrite tracking_reached.
run_geo (northOf origin 500) (mkTarget origin 100 0). run_done.
split; [| reflexivity].
unfold approaching. simpl. rewrite calculateDistance_northOf by lra. reflexivity.
Qed.

Lemma retrigger_needs_dismissal_witness :
  arrivals [Fix (northOf origin 50); Fix (northOf origin 120);
            Fix (northOf origin 200); Fix (northOf origin 90)] approaching
  = 1%nat.
Proof.
apply (retrigger_needs_dismissal approaching (mkTarget origin 100 0)
         (northOf origin 50) (northOf origin 120)
         (northOf origin 200) (northOf origin 90));
  try reflexivity; simpl; apply calculateDistance_northOf; lra.
Defined.

(** C2 as stated fails: the scenario, from the mounting of the component on,
    raises one arrival, not two. *)
Lemma retrigger_scenario_one_arrival :
  arrivals [Start; Fix (northOf origin 500); MapClick origin 0;
            Fix (northOf origin 50); Fix (northOf origin 120);
            Fix (northOf origin 200); Fix (northOf origin 90)] mounted = 1%nat /\
  arrivals [Start; Fix (northOf origin 500); MapClick origin 0;
            Fix (northOf origin 50); Fix (northOf origin 120);
            Fix (northOf origin 200); Fix (northOf origin 90)] mounted <> 2%nat.
Proof.
assert (H : arrivals [Start; Fix (northOf origin 500); MapClick origin 0;
                      Fix (northOf origin 50); Fix (northOf origin 120);
                      Fix (northOf origin 200); Fix (northOf origin 90)] mounted
            = 1%nat).
{ unfold arrivals.
  change [Start; Fix (northOf origin 500); MapClick origin 0;
          Fix (northOf origin 50); Fix (northOf origin 120);
          Fix (northOf origin 200); Fix (northOf origin 90)]
    with ([Start; Fix (northOf origin 500); MapClick origin 0] ++
          [Fix (northOf origin 50); Fix (northOf origin 120);
           Fix (northOf origin 200); Fix (northOf origin 90)]).
  rewrite run_app. cbn [snd].
  destruct approaching_reached as [Hs He]. rewrite Hs, He. cbn [app].
  rewrite (retrigger_undismissed approaching (mkTarget origin 100 0));
    try reflexivity; simpl; apply calculateDistance_northOf; lra. }
rewrite H. split; [reflexivity | discriminate].
Qed.

Lemma arrived_reached :
  fst (run [Fix (northOf origin 80)] approaching) = arrived /\
  snd (run [Fix (northOf origin 80)] approaching) = [Arrival].
Proof.
run_fix (mkTarget origin 100 0). run_done.
split; [| reflexivity].
unfold arrived. simpl. rewrite calculateDistance_northOf by lra. reflexivity.
Qed.

(** The approach of the specification: fixes at 500 m, 150 m, 80 m and 40 m
    from a target of radius 100 raise the arrival once, at the third fix. *)
Example approach_scenario :
  snd (run [Fix (northOf origin 500); Fix (northOf origin 150)] approaching)
  = [] /\
  snd (run [Fix (northOf origin 500); Fix (northOf origin 150);
            Fix (northOf origin 80)] approaching) = [Arrival] /\
  snd (run [Fix (northOf origin 500); Fix (northOf origin 150);
            Fix (northOf origin 80); Fix (northOf origin 40)] approaching)
  = [Arrival].
Proof.
repeat split.
- run_fix (mkTarget origin 100 0). run_fix (mkTarget origin 100 0).
  run_done. reflexivity.
- run_fix (mkTarget origin 100 0). run_fix (mkTarget origin 100 0).
  run_fix (mkTarget origin 100 0). run_done. reflexivity.
- run_fix (mkTarget origin 100 0). run_fix (mkTarget origin 100 0).
  run_fix (mkTarget origin 100 0). run_fix (mkTarget origin 100 0).
  run_done. reflexivity.
Qed.

(** ** Hysteresis *)

(** C3.  With the target triggered, a fix farther than radius + 50 arms it
    again, and a fix in the dead zone, farther than the radius and no farther
    than radius + 50, leaves it triggered. *)
Theorem hysteresis_dead_zone (s : App) (t : TargetLocation) (p : GeoLocation) :
  targetLocation s = Some t ->
  armState s = Triggered ->
  (calculateDistance p t > radius t + 50 ->
   armState (fst (step (Fix p) s)) = Armed) /\
  (radius t < calculateDistance p t <= radius t + 50 ->
   armState (fst (step (Fix p) s)) = Triggered).
Proof.
intros Ht Hs. split; intros Hd.
- rewrite (fix_rearm s p t Ht Hd). reflexivity.
- rewrite (fix_deadzone s p t Ht Hd). simpl. exact Hs.
Qed.

Lemma hysteresis_dead_zone_witness :
  armState (fst (step (Fix (northOf origin 200)) arrived)) = Armed /\
  armState (fst (step (Fix (northOf origin 120)) arrived)) = Triggered.
Proof.
split.
- apply (hysteresis_dead_zone arrived (mkTarget origin 100 0)
           (northOf origin 200)); try reflexivity.
  simpl. rewrite calculateDistance_northOf; lra.
- apply (hysteresis_dead_zone arrived (mkTarget origin 100 0)
           (northOf origin 120)); try reflexivity.
  simpl. rewrite calculateDistance_northOf; lra.
Defined.

(** ** Setting a target *)

(** C4, as the code has it.  The handler of a new target, reached by a tap
    on the map or by the choice of a search result, leaves the target armed
    whatever the state before.  The geofencing check that the new target
    causes then decides: with no position, or the position farther than the
    radius from the new target, the target is armed and nothing is raised;
    with the position within the radius the arrival is raised at once, and
    the target is triggered. *)
Theorem set_target_arm_state (s : App) (m : Msg) (loc : GeoLocation) :
  targets m loc ->
  armState (handle m s) = Armed /\
  ((forall u, userLocation s = Some u ->
      targetRadius s < calculateDistance u loc) ->
   armState (fst (step m s)) = Armed /\
   isAlarmActive (fst (step m s)) = false /\
   snd (step m s) = []) /\
  (forall u, userLocation s = Some u ->
     calculateDistance u loc <= targetRadius s ->
     armState (fst (step m s)) = Triggered /\
     isAlarmActive (fst (step m s)) = true /\
     snd (step m s) = [Arrival]).
Proof.
intros Hm. split; [| split].
- destruct (handle_targets m loc s Hm) as (now & _ & Hg & _).
  unfold armState. rewrite Hg. reflexivity.
- intros Hout.
  destruct (setTarget_outside m loc s Hm Hout) as (He & now & _ & Hg & Ha).
  unfold armState. rewrite Hg. auto.
- intros u Hu Hin.
  destruct (setTarget_inside m loc s Hm u Hu Hin)
    as (He & now & _ & _ & Hg & Ha).
  unfold armState. rewrite Hg. auto.
Qed.

Lemma set_target_arm_state_witness :
  armState (fst (step (MapClick origin 0) (tracking (northOf origin 500))))
  = Armed /\
  armState (fst (step (SearchSelect origin "Home" 0)
                   (tracking (northOf origin 80))))
  = Triggered.
Proof.
split.
- destruct (set_target_arm_state (tracking (northOf origin 500))
              (MapClick origin 0) origin) as (_ & Hout & _);
    [reflexivity |].
  apply Hout. intros u Hu. injection Hu as <-.
  simpl. rewrite calculateDistance_northOf; lra.
- destruct (set_target_arm_state (tracking (northOf origin 80))
              (SearchSelect origin "Home" 0) origin) as (_ & _ & Hin);
    [reflexivity |].
  apply (Hin (northOf origin 80)); [reflexivity |].
  simpl. rewrite calculateDistance_northOf; lra.
Defined.

(** C4 as stated fails: triggered 80 m from a target of radius 100, the
    alarm dismissed, the user taps the map at the own position; the
    geofencing check that follows the tap raises the arrival of the new
    target at once, and the target is triggered, not armed. *)
Lemma set_target_at_own_position_triggers :
  armState (fst (run [Start; Fix (northOf origin 500); MapClick origin 0;
                      Fix (northOf origin 80); DismissAlarm] mounted))
  = Triggered /\
  armState (fst (run [Start; Fix (northOf origin 500); MapClick origin 0;
                      Fix (northOf origin 80); DismissAlarm;
                      MapClick (northOf origin 80) 1] mounted))
  = Triggered /\
  armState (fst (run [Start; Fix (northOf origin 500); MapClick origin 0;
                      Fix (northOf origin 80); DismissAlarm;
                      MapClick (northOf origin 80) 1] mounted))
  <> Armed /\
  snd (run [Start; Fix (northOf origin 500); MapClick origin 0;
            Fix (northOf origin 80); DismissAlarm] mounted)
  = [Arrival] /\
  snd (run [Start; Fix (northOf origin 500); MapClick origin 0;
            Fix (northOf origin 80); DismissAlarm;
            MapClick (northOf origin 80) 1] mounted)
  = [Arrival; Arrival].
Proof.
rewrite !tracking_reached. repeat split.
- run_geo (northOf origin 500) (mkTarget origin 100 0).
  run_fix (mkTarget origin 100 0).
  run_dismiss (northOf origin 80) (mkTarget origin 100 0).
  run_done. reflexivity.
- run_geo (northOf origin 500) (mkTarget origin 100 0).
  run_fix (mkTarget origin 100 0).
  run_dismiss (northOf origin 80) (mkTarget origin 100 0).
  run_geo (northOf origin 80) (mkTarget (northOf origin 80) 100 1).
  run_done. reflexivity.
- run_geo (northOf origin 500) (mkTarget origin 100 0).
  run_fix (mkTarget origin 100 0).
  run_dismiss (northOf origin 80) (mkTarget origin 100 0).
  run_geo (northOf origin 80) (mkTarget (northOf origin 80) 100 1).
  run_done. discriminate.
- run_geo (northOf origin 500) (mkTarget origin 100 0).
  run_fix (mkTarget origin 100 0).
  run_dismiss (northOf origin 80) (mkTarget origin 100 0).
  run_done. reflexivity.
- run_geo (northOf origin 500) (mkTarget origin 100 0).
  run_fix (mkTarget origin 100 0).
  run_dismiss (northOf origin 80) (mkTarget origin 100 0).
  run_geo (northOf origin 80) (mkTarget (northOf origin 80) 100 1).
  run_done. reflexivity.
Qed.

(** ** Changing the radius *)

(** C5, as the code has it.  With the target triggered, a change of the
    radius raises no arrival and its handler does not touch the arming; the
    geofencing check that follows leaves the target triggered when the known
    position is no farther than the new radius + 50 (or none is known), and
    arms it again when the known position is farther than that. *)
Theorem radius_change_while_triggered
    (s : App) (t : TargetLocation) (r : R) :
  targetLocation s = Some t ->
  armState s = Triggered ->
  armState (handleRadiusChange r s) = Triggered /\
  snd (step (RadiusChange r) s) = [] /\
  ((forall u, userLocation s = Some u -> calculateDistance u t <= r + 50) ->
   armState (fst (step (RadiusChange r) s)) = Triggered) /\
  (forall u, userLocation s = Some u -> calculateDistance u t > r + 50 ->
   armState (fst (step (RadiusChange r) s)) = Armed).
Proof.
intros Ht Hs.
assert (Hg : hasTriggeredForCurrentTarget s = true).
{ unfold armState in Hs. destruct (hasTriggeredForCurrentTarget s);
    [reflexivity | discriminate]. }
assert (Hh : armState (handleRadiusChange r s) = Triggered).
{ unfold armState, handleRadiusChange. rewrite Ht. simpl. rewrite Hg. reflexivity. }
split; [exact Hh |].
destruct (userLocation s) as [u |] eqn:Hu.
- destruct (Rle_dec (calculateDistance u t) r) as [Hin | Hout];
    [| destruct (Rgt_dec (calculateDistance u t) (r + 50)) as [Hfar | Hnear]].
  + rewrite (radius_inside_quiet s u t r Hu Ht Hin (or_intror Hg)).
    simpl. repeat split; auto.
    intros u' Hu' Hd. injection Hu' as <-. lra.
  + rewrite (radius_rearm s u t r Hu Ht Hfar).
    simpl. repeat split; auto.
    intros Hall. specialize (Hall u eq_refl). lra.
  + rewrite (radius_deadzone s u t r Hu Ht) by lra.
    simpl. repeat split; auto.
    intros u' Hu' Hd. injection Hu' as <-. lra.
- rewrite (radius_no_position s r Hu). simpl. repeat split; auto.
  intros u Hu'. discriminate Hu'.
Qed.

Lemma radius_change_while_triggered_witness :
  snd (step (RadiusChange 50) arrived) = [] /\
  armState (fst (step (RadiusChange 50) arrived)) = Triggered.
Proof.
destruct (radius_change_while_triggered arrived (mkTarget origin 100 0) 50)
  as (_ & He & Hstay & _); try reflexivity.
split; [exact He |].
apply Hstay. intros u Hu. injection Hu as <-.
simpl. rewrite calculateDistance_northOf; lra.
Defined.

(** ** Dismissing the alarm *)

(** C6, as the code has it.  The dismiss handler clears [isAlarmActive] and
    writes nothing else.  The flag is a dependency of the geofencing check,
    which runs again: on a state the component can be in, the dismissal as
    a whole is the handler alone, and raises nothing, if the target is
    triggered, or there is no target, or the position is outside the
    radius; if the target is armed and the position within the radius (the
    user left the outer band and came back while the alarm was showing),
    the alarm is raised again at once, and what the dismissal has changed is
    the arming, from armed to triggered, and not the alarm flag. *)
Theorem dismiss_frame (s : App) :
  (handle DismissAlarm s = handleDismissAlarm s /\
   isAlarmActive (handleDismissAlarm s) = false /\
   armState (handleDismissAlarm s) = armState s /\
   hasTriggeredForCurrentTarget (handleDismissAlarm s) =
     hasTriggeredForCurrentTarget s /\
   targetLocation (handleDismissAlarm s) = targetLocation s /\
   userLocation (handleDismissAlarm s) = userLocation s /\
   distance (handleDismissAlarm s) = distance s /\
   targetRadius (handleDismissAlarm s) = targetRadius s /\
   focusRequest (handleDismissAlarm s) = focusRequest s /\
   permissionError (handleDismissAlarm s) = permissionError s /\
   hasStarted (handleDismissAlarm s) = hasStarted s /\
   watchIdRef (handleDismissAlarm s) = watchIdRef s /\
   geolocation (handleDismissAlarm s) = geolocation s) /\
  (settled s ->
   (armState s = Triggered \/ targetLocation s = None \/
    (forall u t, userLocation s = Some u -> targetLocation s = Some t ->
       radius t < calculateDistance u t) ->
    step DismissAlarm s = (handleDismissAlarm s, [])) /\
   (forall u t, userLocation s = Some u -> targetLocation s = Some t ->
      armState s = Armed ->
      calculateDistance u t <= radius t ->
      isAlarmActive s = true /\
      step DismissAlarm s = (setHasTriggeredForCurrentTarget true s, [Arrival]) /\
      isAlarmActive (fst (step DismissAlarm s)) = true /\
      armState (fst (step DismissAlarm s)) = Triggered)).
Proof.
split; [repeat split |].
intros Hs. split.
- intros Hcase. apply dismiss_step_quiet; [exact Hs |].
  destruct Hcase as [Hc | [Hc | Hc]]; auto.
  left. unfold armState in Hc.
  destruct (hasTriggeredForCurrentTarget s); [reflexivity | discriminate].
- intros u t Hu Ht Harm Hin.
  assert (Hg : hasTriggeredForCurrentTarget s = false).
  { unfold armState in Harm.
    destruct (hasTriggeredForCurrentTarget s); [discriminate | reflexivity]. }
  destruct (dismiss_step_again s u t Hs Hu Ht Hg Hin) as [Ha Hstep].
  rewrite Hstep. repeat split; assumption || reflexivity.
Qed.

Lemma dismiss_frame_witness :
  step DismissAlarm arrived = (handleDismissAlarm arrived, []) /\
  step DismissAlarm (setHasTriggeredForCurrentTarget false arrived)
  = (arrived, [Arrival]).
Proof.
split.
- destruct (dismiss_frame arrived) as (_ & H).
  destruct H as (Hquiet & _).
  + unfold settled, geofencing; simpl.
    rewrite calculateDistance_northOf by lra.
    destruct (Rle_dec 80 100); [reflexivity | lra].
  + apply Hquiet. left. reflexivity.
- destruct (dismiss_frame (setHasTriggeredForCurrentTarget false arrived))
    as (_ & H).
  destruct H as (_ & Hagain).
  + unfold settled, geofencing; simpl.
    rewrite calculateDistance_northOf by lra.
    destruct (Rle_dec 80 100); [reflexivity | lra].
  + destruct (Hagain (northOf origin 80) (mkTarget origin 100 0))
      as (_ & Hstep & _); try reflexivity.
    * simpl. rewrite calculateDistance_northOf; lra.
    * exact Hstep.
Defined.

(** C6 as stated fails: triggered at 50 m from a target of radius 100, the
    alarm left showing, the user moves to 200 m, which arms the target
    again, and comes back to 90 m; the dismissal then raises the alarm
    again: after it the alarm flag is set and the target is triggered. *)
Lemma dismissal_raises_alarm_again :
  armState (fst (run [Start; Fix (northOf origin 500); MapClick origin 0;
                      Fix (northOf origin 50); Fix (northOf origin 200);
                      Fix (northOf origin 90)] mounted))
  = Armed /\
  armState (fst (run [Start; Fix (northOf origin 500); MapClick origin 0;
                      Fix (northOf origin 50); Fix (northOf origin 200);
                      Fix (northOf origin 90); DismissAlarm] mounted))
  = Triggered /\
  isAlarmActive (fst (run [Start; Fix (northOf origin 500); MapClick origin 0;
                           Fix (northOf origin 50); Fix (northOf origin 200);
                           Fix (northOf origin 90); DismissAlarm] mounted))
  = true /\
  snd (run [Start; Fix (northOf origin 500); MapClick origin 0;
            Fix (northOf origin 50); Fix (northOf origin 200);
            Fix (northOf origin 90)] mounted)
  = [Arrival] /\
  snd (run [Start; Fix (northOf origin 500); MapClick origin 0;
            Fix (northOf origin 50); Fix (northOf origin 200);
            Fix (northOf origin 90); DismissAlarm] mounted)
  = [Arrival; Arrival].
Proof.
rewrite !tracking_reached. repeat split.
- run_geo (northOf origin 500) (mkTarget origin 100 0).
  run_fix (mkTarget origin 100 0). run_fix (mkTarget origin 100 0).
  run_fix (mkTarget origin 100 0). run_done. reflexivity.
- run_geo (northOf origin 500) (mkTarget origin 100 0).
  run_fix (mkTarget origin 100 0). run_fix (mkTarget origin 100 0).
  run_fix (mkTarget origin 100 0).
  run_dismiss (northOf origin 90) (mkTarget origin 100 0).
  run_done. reflexivity.
- run_geo (northOf origin 500) (mkTarget origin 100 0).
  run_fix (mkTarget origin 100 0). run_fix (mkTarget origin 100 0).
  run_fix (mkTarget origin 100 0).
  run_dismiss (northOf origin 90) (mkTarget origin 100 0).
  run_done. reflexivity.
- run_geo (northOf origin 500) (mkTarget origin 100 0).
  run_fix (mkTarget origin 100 0). run_fix (mkTarget origin 100 0).
  run_fix (mkTarget origin 100 0). run_done. reflexivity.
- run_geo (northOf origin 500) (mkTarget origin 100 0).
  run_fix (mkTarget origin 100 0). run_fix (mkTarget origin 100 0).
  run_fix (mkTarget origin 100 0).
  run_dismiss (northOf origin 90) (mkTarget origin 100 0).
  run_done. reflexivity.
Qed.

(** C5 as stated fails: triggered 400 m from a target of radius 500, the
    alarm dismissed, the user narrows the radius to 100; the geofencing check
    that follows the change finds the position beyond 100 + 50 and arms the
    target again, and widening the radius back to 500 raises a second
    arrival, with no fix in between. *)
Lemma narrowing_rearms :
  armState (fst (run [Start; Fix (northOf origin 1000); RadiusChange 500;
                      MapClick origin 0; Fix (northOf origin 400);
                      DismissAlarm] mounted))
  = Triggered /\
  armState (fst (run [Start; Fix (northOf origin 1000); RadiusChange 500;
                      MapClick origin 0; Fix (northOf origin 400);
                      DismissAlarm; RadiusChange 100] mounted))
  = Armed /\
  snd (run [Start; Fix (northOf origin 1000); RadiusChange 500;
            MapClick origin 0; Fix (northOf origin 400);
            DismissAlarm; RadiusChange 100; RadiusChange 500] mounted)
  = [Arrival; Arrival].
Proof.
rewrite !tracking_reached. repeat split.
- run_idle.
  run_geo (northOf origin 1000) (mkTarget origin 500 0).
  run_fix (mkTarget origin 500 0).
  run_dismiss (northOf origin 400) (mkTarget origin 500 0).
  run_done. reflexivity.
- run_idle.
  run_geo (northOf origin 1000) (mkTarget origin 500 0).
  run_fix (mkTarget origin 500 0).
  run_dismiss (northOf origin 400) (mkTarget origin 500 0).
  run_radius (northOf origin 400) (mkTarget origin 500 0).
  run_done. reflexivity.
- run_idle.
  run_geo (northOf origin 1000) (mkTarget origin 500 0).
  run_fix (mkTarget origin 500 0).
  run_dismiss (northOf origin 400) (mkTarget origin 500 0).
  run_radius (northOf origin 400) (mkTarget origin 500 0).
  run_radius (northOf origin 400) (mkTarget origin 100 0).
  run_done. reflexivity.
Qed.

(** ** The arrival check on target and radius changes *)

(** C9, as the code has it.  The check runs after a change of the radius or
    of the target, with the position already known.  With the target armed
    and the known distance within the new radius, the change of the radius
    raises the arrival at once if no alarm is active, and raises nothing if
    the alarm is still active; a new target within whose radius the user
    already is raises the arrival as it is set. *)
Theorem arrival_on_radius_change
    (s : App) (u : GeoLocation) (t : TargetLocation) (r : R) :
  userLocation s = Some u ->
  targetLocation s = Some t ->
  armState s = Armed ->
  calculateDistance u t <= r ->
  (isAlarmActive s = false ->
   snd (step (RadiusChange r) s) = [Arrival] /\
   armState (fst (step (RadiusChange r) s)) = Triggered /\
   userLocation (fst (step (RadiusChange r) s)) = Some u) /\
  (isAlarmActive s = true ->
   snd (step (RadiusChange r) s) = [] /\
   armState (fst (step (RadiusChange r) s)) = Armed) /\
  (forall m loc, targets m loc ->
     calculateDistance u loc <= targetRadius s ->
     snd (step m s) = [Arrival]).
Proof.
intros Hu Ht Hs Hd.
assert (Hg : hasTriggeredForCurrentTarget s = false).
{ unfold armState in Hs. destruct (hasTriggeredForCurrentTarget s);
    [discriminate | reflexivity]. }
repeat split.
- rewrite (radius_arrival s u t r Hu Ht Hd H Hg). reflexivity.
- rewrite (radius_arrival s u t r Hu Ht Hd H Hg). reflexivity.
- rewrite (radius_arrival s u t r Hu Ht Hd H Hg). simpl.
  apply (handleRadiusChange_user s u t r Hu Ht).
- rewrite (radius_inside_quiet s u t r Hu Ht Hd (or_introl H)). reflexivity.
- rewrite (radius_inside_quiet s u t r Hu Ht Hd (or_introl H)).
  unfold armState, handleRadiusChange. rewrite Ht. simpl. rewrite Hg.
  reflexivity.
- intros m loc Hm Hin.
  apply (setTarget_inside m loc s Hm u Hu Hin).
Qed.

Lemma arrival_on_radius_change_witness :
  snd (step (RadiusChange 500) approaching) = [Arrival].
Proof.
apply (arrival_on_radius_change approaching (northOf origin 500)
         (mkTarget origin 100 0) 500); try reflexivity.
simpl. rewrite calculateDistance_northOf; lra.
Defined.

(** C9 as stated fails when the alarm of an earlier arrival is still active:
    triggered at 50 m, the user moves to 200 m, which arms the target of
    radius 100 again; widening the radius to 300 then raises nothing. *)
Lemma widening_while_alarm_active :
  armState (fst (run [Start; Fix (northOf origin 500); MapClick origin 0;
                      Fix (northOf origin 50); Fix (northOf origin 200)]
                   mounted)) = Armed /\
  distance (fst (run [Start; Fix (northOf origin 500); MapClick origin 0;
                      Fix (northOf origin 50); Fix (northOf origin 200)]
                   mounted)) = Some 200 /\
  200 <= 300 /\
  snd (run [Start; Fix (northOf origin 500); MapClick origin 0;
            Fix (northOf origin 50); Fix (northOf origin 200)] mounted)
  = [Arrival] /\
  snd (run [Start; Fix (northOf origin 500); MapClick origin 0;
            Fix (northOf origin 50); Fix (northOf origin 200);
            RadiusChange 300] mounted)
  = [Arrival].
Proof.
rewrite !tracking_reached. repeat split.
- run_geo (northOf origin 500) (mkTarget origin 100 0).
  run_fix (mkTarget origin 100 0). run_fix (mkTarget origin 100 0).
  run_done. reflexivity.
- run_geo (northOf origin 500) (mkTarget origin 100 0).
  run_fix (mkTarget origin 100 0). run_fix (mkTarget origin 100 0).
  run_done. simpl. rewrite calculateDistance_northOf by lra. reflexivity.
- lra.
- run_geo (northOf origin 500) (mkTarget origin 100 0).
  run_fix (mkTarget origin 100 0). run_fix (mkTarget origin 100 0).
  run_done. reflexivity.
- run_geo (northOf origin 500) (mkTarget origin 100 0).
  run_fix (mkTarget origin 100 0). run_fix (mkTarget origin 100 0).
  run_radius (northOf origin 200) (mkTarget origin 100 0).
  run_done. reflexivity.
Qed.

(** ** No arrival while the alarm is active *)

(** C10.  With the alarm active, one run of the geofencing check raises
    nothing and leaves the alarm flag set, also when it arms the target
    again beyond the outer band; no run of messages other than a dismissal,
    a new target or the clearing of the target raises an arrival; and a fix
    beyond the band followed by a fix within the radius raises nothing,
    unless the alarm is dismissed in between. *)
Theorem no_arrival_while_alarm_active (s : App) :
  isAlarmActive s = true ->
  snd (geofencing s) = [] /\
  isAlarmActive (fst (geofencing s)) = true /\
  (forall u t, userLocation s = Some u -> targetLocation s = Some t ->
     calculateDistance u t > radius t + 50 ->
     armState (fst (geofencing s)) = Armed) /\
  (forall ms, Forall (fun m => keepsAlarm m = true) ms ->
     snd (run ms s) = [] /\ isAlarmActive (fst (run ms s)) = true) /\
  (forall t away back, targetLocation s = Some t ->
     calculateDistance away t > radius t + 50 ->
     calculateDistance back t <= radius t ->
     snd (run [Fix away; Fix back] s) = [] /\
     snd (run [Fix away; DismissAlarm; Fix back] s) = [Arrival]).
Proof.
intros Ha.
destruct (geofencing_active_silent s Ha) as [He Ha'].
repeat split; auto.
- intros u t Hu Ht Hd. rewrite (geofencing_rearm s u t Hu Ht Hd). reflexivity.
- apply active_run_silent; assumption.
- apply active_run_silent; assumption.
- run_fix t. run_fix t. run_done. reflexivity.
- run_fix t. run_dismiss away t. run_fix t. run_done. reflexivity.
Qed.

Lemma no_arrival_while_alarm_active_witness :
  snd (run [Fix (northOf origin 200); Fix (northOf origin 90)] arrived) = [].
Proof.
destruct (no_arrival_while_alarm_active arrived eq_refl)
  as (_ & _ & _ & Hrun & _).
apply Hrun. repeat constructor.
Defined.

(** ** The accuracy fallback *)

Lemma errorMessage_nonempty (error : GeolocationPositionError) :
  errorMessage error <> ""%string.
Proof.
unfold errorMessage.
destruct (Z.eqb (code error) 1); [discriminate |].
destruct (Z.eqb (code error) 2); [discriminate |].
destruct (Z.eqb (code error) 3); discriminate.
Qed.

(** C8.  A watch exists, so the browser has a geolocation service [g].
    Timeout (3) or position unavailable (2) reported to the high-accuracy
    watch starts a watch with [enableHighAccuracy = false] and leaves the
    displayed error as it was; permission denied (1) at either tier, and any
    failure of the low-accuracy watch, display the message of the error and
    start no watch.  The message is never empty. *)
Theorem accuracy_fallback
    (s : App) (g : Geolocation) (error : GeolocationPositionError) :
  geolocation s = Some g ->
  (code error = 3%Z \/ code error = 2%Z ->
   let s' := fst (step (WatchError true error) s) in
   permissionError s' = permissionError s /\
   watchIdRef s' = Some (nextWatchId g) /\
   geolocation s' =
     Some {| watches :=
               (nextWatchId g,
                {| enableHighAccuracy := false; timeout := 15000;
                   maximumAge := 0 |}) :: watches g;
             nextWatchId := (nextWatchId g + 1)%Z |}) /\
  (code error = 1%Z ->
   forall tier,
     let s' := fst (step (WatchError tier error) s) in
     permissionError s' =
       Some "Location access denied. Please enable location permissions."%string /\
     geolocation s' = Some g /\ watchIdRef s' = watchIdRef s) /\
  (let s' := fst (step (WatchError false error) s) in
   permissionError s' = Some (errorMessage error) /\
   geolocation s' = Some g /\ watchIdRef s' = watchIdRef s) /\
  errorMessage error <> ""%string.
Proof.
intros Hg.
split; [| split; [| split; [| apply errorMessage_nonempty]]].
- intros Hcode s'. unfold s'. rewrite step_geofencing.
  destruct (geofencing_frame (handle (WatchError true error) s))
    as (_ & _ & _ & Hp & Hw & Hgeo & _).
  rewrite Hp, Hw, Hgeo. simpl. unfold onPositionError.
  assert (Hb : (Z.eqb (code error) 3 || Z.eqb (code error) 2) = true).
  { destruct Hcode as [-> | ->]; reflexivity. }
  rewrite Hb. simpl. unfold attemptWatch. rewrite Hg. simpl. auto.
- intros Hcode tier s'. unfold s'. rewrite step_geofencing.
  destruct (geofencing_frame (handle (WatchError tier error) s))
    as (_ & _ & _ & Hp & Hw & Hgeo & _).
  rewrite Hp, Hw, Hgeo. simpl. unfold onPositionError, errorMessage.
  rewrite Hcode. simpl. rewrite andb_false_r. simpl. auto.
- intros s'. unfold s'. rewrite step_geofencing.
  destruct (geofencing_frame (handle (WatchError false error) s))
    as (_ & _ & _ & Hp & Hw & Hgeo & _).
  rewrite Hp, Hw, Hgeo. simpl. auto.
Qed.

Lemma accuracy_fallback_witness :
  permissionError
    (fst (step (WatchError true (mkError 2 "Position unavailable"))
            (tracking origin))) = None.
Proof.
destruct (accuracy_fallback (tracking origin)
            {| watches := [(1%Z, {| enableHighAccuracy := true;
                                    timeout := 15000; maximumAge := 0 |})];
               nextWatchId := 2 |}
            (mkError 2 "Position unavailable") eq_refl) as (Hrec & _).
destruct (Hrec (or_intror eq_refl)) as (Hp & _).
exact Hp.
Defined.

(** * Further properties of the code *)

(** ** What the component keeps true of its state *)

(** The watch operations leave the fields of the geofence alone. *)
Lemma handleStart_geofence (s : App) :
  userLocation (handleStart s) = userLocation s /\
  targetLocation (handleStart s) = targetLocation s /\
  targetRadius (handleStart s) = targetRadius s /\
  isAlarmActive (handleStart s) = isAlarmActive s /\
  hasTriggeredForCurrentTarget (handleStart s) = hasTriggeredForCurrentTarget s /\
  distance (handleStart s) = distance s.
Proof.
destruct s as [hs pe ul tl di tr fr aa ht wi ge].
destruct wi, ge; simpl; repeat split.
Qed.

Lemma onPositionError_geofence
    (b : bool) (e : GeolocationPositionError) (s : App) :
  userLocation (onPositionError b e s) = userLocation s /\
  targetLocation (onPositionError b e s) = targetLocation s /\
  targetRadius (onPositionError b e s) = targetRadius s /\
  isAlarmActive (onPositionError b e s) = isAlarmActive s /\
  hasTriggeredForCurrentTarget (onPositionError b e s) =
    hasTriggeredForCurrentTarget s /\
  distance (onPositionError b e s) = distance s.
Proof.
destruct s as [hs pe ul tl di tr fr aa ht wi ge].
unfold onPositionError.
destruct (b && _); [destruct ge |]; simpl; repeat split.
Qed.

Lemma handleCenterLocation_geofence (now : Z) (s : App) :
  userLocation (handleCenterLocation now s) = userLocation s /\
  targetLocation (handleCenterLocation now s) = targetLocation s /\
  targetRadius (handleCenterLocation now s) = targetRadius s /\
  isAlarmActive (handleCenterLocation now s) = isAlarmActive s /\
  hasTriggeredForCurrentTarget (handleCenterLocation now s) =
    hasTriggeredForCurrentTarget s /\
  distance (handleCenterLocation now s) = distance s.
Proof.
destruct s as [hs pe ul tl di tr fr aa ht wi ge].
destruct ul; simpl; repeat split.
Qed.

Lemma handle_radiusSynced (m : Msg) (s : App) :
  radiusSynced s -> radiusSynced (handle m s).
Proof.
unfold radiusSynced. intros Hs.
destruct m; simpl; try exact Hs.
- (* Start *)
  destruct (handleStart_geofence s) as (_ & Ht & Hr & _).
  rewrite Ht, Hr. exact Hs.
- (* WatchError *)
  destruct (onPositionError_geofence isHighAccuracy error s) as (_ & Ht & Hr & _).
  rewrite Ht, Hr. exact Hs.
- (* MapClick *)
  intros t Ht. injection Ht as <-. reflexivity.
- (* SearchSelect *)
  intros t Ht. injection Ht as <-. reflexivity.
- (* RadiusChange *)
  unfold handleRadiusChange.
  destruct (targetLocation s) as [t0 |] eqn:Ht0; simpl.
  + rewrite Ht0. intros t Ht. injection Ht as <-. reflexivity.
  + rewrite Ht0. discriminate.
- (* ClearTarget *)
  discriminate.
- (* CenterLocation *)
  destruct (handleCenterLocation_geofence now s) as (_ & Ht & Hr & _).
  rewrite Ht, Hr. exact Hs.
Qed.

Lemma handle_flagsGrounded (m : Msg) (s : App) :
  flagsGrounded s -> flagsGrounded (handle m s).
Proof.
unfold flagsGrounded. intros Hs.
destruct m; simpl; try exact Hs.
- (* Start *)
  destruct (handleStart_geofence s) as (Hu & Ht & _ & Ha & Hg & _).
  rewrite Hu, Ht, Ha, Hg. exact Hs.
- (* Fix *)
  intros [H | H]; [discriminate | auto].
- (* WatchError *)
  destruct (onPositionError_geofence isHighAccuracy error s)
    as (Hu & Ht & _ & Ha & Hg & _).
  rewrite Hu, Ht, Ha, Hg. exact Hs.
- (* MapClick *) auto.
- (* SearchSelect *) auto.
- (* RadiusChange *)
  unfold handleRadiusChange.
  destruct (targetLocation s) as [t0 |] eqn:Ht0; simpl.
  + rewrite Ht0. intros [H | H]; [auto | discriminate].
  + rewrite Ht0. auto.
- (* ClearTarget *) auto.
- (* DismissAlarm *)
  intros H. destruct (Hs H) as [_ Hg]. auto.
- (* CenterLocation *)
  destruct (handleCenterLocation_geofence now s) as (Hu & Ht & _ & Ha & Hg & _).
  rewrite Hu, Ht, Ha, Hg. exact Hs.
Qed.

(** The effect establishes the rest. *)
Lemma geofencing_coherent (s : App) :
  radiusSynced s -> flagsGrounded s -> Coherent (fst (geofencing s)).
Proof.
intros Hr Hf.
assert (Hfin : forall s' : App,
           userLocation s' = userLocation s ->
           targetLocation s' = targetLocation s ->
           targetRadius s' = targetRadius s ->
           fst (geofencing s) = s' ->
           distance s' =
             match userLocation s, targetLocation s with
             | Some u, Some t => Some (calculateDistance u t)
             | _, _ => None
             end ->
           (userLocation s = None \/ targetLocation s = None ->
            isAlarmActive s' = false /\ hasTriggeredForCurrentTarget s' = false) ->
           (forall u t, userLocation s = Some u -> targetLocation s = Some t ->
              hasTriggeredForCurrentTarget s' = true ->
              calculateDistance u t <= radius t + 50) ->
           (forall u t, userLocation s = Some u -> targetLocation s = Some t ->
              calculateDistance u t <= radius t ->
              isAlarmActive s' = true \/ hasTriggeredForCurrentTarget s' = true) ->
           Coherent (fst (geofencing s))).
{ intros s' Hu' Ht' Hr' -> Hd Hfl Htr Hin.
  constructor; unfold radiusSynced, flagsGrounded; rewrite ?Hu', ?Ht', ?Hr';
    assumption. }
destruct (userLocation s) as [u |] eqn:Hu;
  [destruct (targetLocation s) as [t |] eqn:Ht |].
- destruct (Rle_dec (calculateDistance u t) (radius t)) as [Hin | Hout];
    [destruct (isAlarmActive s) eqn:Ha;
       [| destruct (hasTriggeredForCurrentTarget s) eqn:Hg]
    | destruct (Rgt_dec (calculateDistance u t) (radius t + 50)) as [Hfar | Hnear]].
  + eapply Hfin;
      try (rewrite (geofencing_inside_quiet s u t Hu Ht Hin (or_introl Ha));
           reflexivity);
      simpl; rewrite ?Hu, ?Ht, ?Ha; auto.
    * intros [H | H]; discriminate.
    * intros u' t' Hu' Ht' _. injection Hu' as <-. injection Ht' as <-. lra.
  + eapply Hfin;
      try (rewrite (geofencing_inside_quiet s u t Hu Ht Hin (or_intror Hg));
           reflexivity);
      simpl; rewrite ?Hu, ?Ht, ?Hg; auto.
    * intros [H | H]; discriminate.
    * intros u' t' Hu' Ht' _. injection Hu' as <-. injection Ht' as <-. lra.
  + eapply Hfin;
      try (rewrite (geofencing_arrival s u t Hu Ht Hin Ha Hg); reflexivity);
      simpl; rewrite ?Hu, ?Ht; auto.
    * intros [H | H]; discriminate.
    * intros u' t' Hu' Ht' _. injection Hu' as <-. injection Ht' as <-. lra.
  + eapply Hfin;
      try (rewrite (geofencing_rearm s u t Hu Ht Hfar); reflexivity);
      simpl; rewrite ?Hu, ?Ht; auto.
    * intros [H | H]; discriminate.
    * intros u' t' _ _ H. discriminate H.
    * intros u' t' Hu' Ht' Hd. injection Hu' as <-. injection Ht' as <-. lra.
  + eapply Hfin;
      try (rewrite (geofencing_deadzone s u t Hu Ht) by lra; reflexivity);
      simpl; rewrite ?Hu, ?Ht; auto.
    * intros [H | H]; discriminate.
    * intros u' t' Hu' Ht' _. injection Hu' as <-. injection Ht' as <-. lra.
    * intros u' t' Hu' Ht' Hd. injection Hu' as <-. injection Ht' as <-. lra.
- eapply Hfin;
    try (rewrite geofencing_idle by auto; reflexivity);
    simpl; rewrite ?Hu, ?Ht; auto.
  + intros u' t' _ H. discriminate H.
  + intros u' t' _ H. discriminate H.
- eapply Hfin;
    try (rewrite geofencing_idle by auto; reflexivity);
    simpl; rewrite ?Hu; auto.
  + intros u' t' H. discriminate H.
  + intros u' t' H. discriminate H.
Qed.

Lemma step_coherent (m : Msg) (s : App) :
  radiusSynced s -> flagsGrounded s -> Coherent (fst (step m s)).
Proof.
intros Hr Hf. rewrite step_geofencing.
apply geofencing_coherent;
  [apply handle_radiusSynced | apply handle_flagsGrounded]; assumption.
Qed.

Lemma initial_coherent (g : option Geolocation) : Coherent (initial g).
Proof.
constructor; unfold radiusSynced, flagsGrounded; simpl; auto; discriminate.
Qed.

Lemma run_coherent (ms : list Msg) :
  forall s, Coherent s -> Coherent (fst (run ms s)).
Proof.
induction ms as [| m ms IH]; intros s Hs.
- exact Hs.
- rewrite run_cons. cbn [fst]. apply IH.
  apply step_coherent; [apply (coherent_radius s Hs) | apply (coherent_flags s Hs)].
Qed.

Lemma run_app_state (ms1 ms2 : list Msg) (s : App) :
  fst (run (ms1 ++ ms2) s) = fst (run ms2 (fst (run ms1 s))).
Proof. rewrite run_app. reflexivity. Qed.

Lemma run_app_events (ms1 ms2 : list Msg) (s : App) :
  snd (run (ms1 ++ ms2) s) = snd (run ms1 s) ++ snd (run ms2 (fst (run ms1 s))).
Proof. rewrite run_app. reflexivity. Qed.

Lemma arrived_from_mount :
  fst (run [Start; Fix (northOf origin 500); MapClick origin 0;
            Fix (northOf origin 80)] mounted) = arrived.
Proof.
change [Start; Fix (northOf origin 500); MapClick origin 0;
        Fix (northOf origin 80)]
  with ([Start; Fix (northOf origin 500); MapClick origin 0] ++
        [Fix (northOf origin 80)]).
rewrite run_app_state.
destruct approaching_reached as [Hs _]. rewrite Hs.
apply arrived_reached.
Qed.

(** X1.  The displayed distance is never stale: in every state the component
    reaches from mounting, [distance] is the distance of the current position
    to the current target, and [null] when either is missing. *)
Theorem distance_never_stale (g : option Geolocation) (ms : list Msg) :
  let s := fst (run ms (initial g)) in
  distance s =
  match userLocation s, targetLocation s with
  | Some u, Some t => Some (calculateDistance u t)
  | _, _ => None
  end.
Proof.
apply (coherent_distance _ (run_coherent ms _ (initial_coherent g))).
Qed.

(** X2.  The radius of the active target and the radius setting of the
    slider never diverge, in any state reached from mounting. *)
Theorem target_radius_is_slider_radius
    (g : option Geolocation) (ms : list Msg) (t : TargetLocation) :
  targetLocation (fst (run ms (initial g))) = Some t ->
  radius t = targetRadius (fst (run ms (initial g))).
Proof.
apply (coherent_radius _ (run_coherent ms _ (initial_coherent g))).
Qed.

Lemma target_radius_is_slider_radius_witness :
  radius (mkTarget origin 100 0) =
  targetRadius (fst (run [Start; Fix (northOf origin 500); MapClick origin 0;
                          Fix (northOf origin 80)] mounted)).
Proof.
apply (target_radius_is_slider_radius (Some browser)
         [Start; Fix (northOf origin 500); MapClick origin 0;
          Fix (northOf origin 80)]).
change (initial (Some browser)) with mounted.
rewrite arrived_from_mount. reflexivity.
Defined.

(** X3.  Without a target, or before the first position, no alarm is active
    and no arrival is on record, in any state reached from mounting. *)
Theorem no_alarm_without_target_or_position
    (g : option Geolocation) (ms : list Msg) :
  let s := fst (run ms (initial g)) in
  userLocation s = None \/ targetLocation s = None ->
  isAlarmActive s = false /\ hasTriggeredForCurrentTarget s = false.
Proof.
apply (coherent_flags _ (run_coherent ms _ (initial_coherent g))).
Qed.

Lemma no_alarm_without_target_or_position_witness :
  isAlarmActive (fst (run [Start; Fix origin] mounted)) = false.
Proof.
apply (no_alarm_without_target_or_position (Some browser) [Start; Fix origin]).
right. change (initial (Some browser)) with mounted.
rewrite run_tracking. reflexivity.
Defined.

(** X4.  A triggered target has the user within its outer band: in any state
    reached from mounting with [hasTriggeredForCurrentTarget] set, the
    position is no farther than radius + 50 from the target. *)
Theorem triggered_within_outer_band
    (g : option Geolocation) (ms : list Msg)
    (u : GeoLocation) (t : TargetLocation) :
  userLocation (fst (run ms (initial g))) = Some u ->
  targetLocation (fst (run ms (initial g))) = Some t ->
  hasTriggeredForCurrentTarget (fst (run ms (initial g))) = true ->
  calculateDistance u t <= radius t + 50.
Proof.
apply (coherent_triggered _ (run_coherent ms _ (initial_coherent g))).
Qed.

Lemma triggered_within_outer_band_witness :
  calculateDistance (northOf origin 80) (mkTarget origin 100 0) <=
  radius (mkTarget origin 100 0) + 50.
Proof.
apply (triggered_within_outer_band (Some browser)
         [Start; Fix (northOf origin 500); MapClick origin 0;
          Fix (northOf origin 80)]);
  change (initial (Some browser)) with mounted;
  rewrite arrived_from_mount; reflexivity.
Defined.

(** X5.  No arrival is missed: in any state reached from mounting with the
    position within the radius of the target, the alarm is active or the
    arrival is on record. *)
Theorem no_missed_arrival
    (g : option Geolocation) (ms : list Msg)
    (u : GeoLocation) (t : TargetLocation) :
  userLocation (fst (run ms (initial g))) = Some u ->
  targetLocation (fst (run ms (initial g))) = Some t ->
  calculateDistance u t <= radius t ->
  isAlarmActive (fst (run ms (initial g))) = true \/
  hasTriggeredForCurrentTarget (fst (run ms (initial g))) = true.
Proof.
apply (coherent_inside _ (run_coherent ms _ (initial_coherent g))).
Qed.

Lemma no_missed_arrival_witness :
  isAlarmActive
    (fst (run [Start; Fix (northOf origin 500); MapClick origin 0;
               Fix (northOf origin 80)] mounted)) = true \/
  hasTriggeredForCurrentTarget
    (fst (run [Start; Fix (northOf origin 500); MapClick origin 0;
               Fix (northOf origin 80)] mounted)) = true.
Proof.
apply (no_missed_arrival (Some browser)
         [Start; Fix (northOf origin 500); MapClick origin 0;
          Fix (northOf origin 80)] (northOf origin 80) (mkTarget origin 100 0)).
- change (initial (Some browser)) with mounted.
  rewrite arrived_from_mount. reflexivity.
- change (initial (Some browser)) with mounted.
  rewrite arrived_from_mount. reflexivity.
- simpl. rewrite calculateDistance_northOf; lra.
Defined.

(** ** Counting arrivals *)

(** An arrival uses up the credit of the alarm flag; nothing else moves
    it. *)
Lemma geofencing_credit (s : App) :
  (List.length (snd (geofencing s)) + alarmCredit (fst (geofencing s)))%nat
  = alarmCredit s.
Proof.
unfold alarmCredit, geofencing.
destruct (isAlarmActive s) eqn:Ha, (hasTriggeredForCurrentTarget s) eqn:Hg;
  destruct (userLocation s); [destruct (targetLocation s) | | destruct (targetLocation s) | | destruct (targetLocation s) | | destruct (targetLocation s) |];
  cbv zeta; simpl; rewrite ?Ha, ?Hg; simpl;
  repeat match goal with
         | |- context [Rle_dec ?x ?y] => destruct (Rle_dec x y)
         | |- context [Rgt_dec ?x ?y] => destruct (Rgt_dec x y)
         end;
  simpl; rewrite ?Ha; reflexivity.
Qed.

Lemma handle_credit (m : Msg) (s : App) :
  (alarmCredit (handle m s) <= (if clearsAlarm m then 1 else 0) + alarmCredit s)%nat.
Proof.
unfold clearsAlarm.
destruct (keepsAlarm m) eqn:Hk; simpl.
- unfold alarmCredit. rewrite handle_keepsAlarm by assumption. lia.
- unfold alarmCredit. destruct (isAlarmActive (handle m s)); lia.
Qed.

Lemma step_credit (m : Msg) (s : App) :
  (List.length (snd (step m s)) + alarmCredit (fst (step m s))
   <= (if clearsAlarm m then 1 else 0) + alarmCredit s)%nat.
Proof.
rewrite step_geofencing, geofencing_credit. apply handle_credit.
Qed.

Lemma run_credit (ms : list Msg) :
  forall s,
    (List.length (snd (run ms s)) + alarmCredit (fst (run ms s))
     <= alarmClears ms + alarmCredit s)%nat.
Proof.
induction ms as [| m ms IH]; intros s.
- simpl. lia.
- rewrite run_cons. cbn [fst snd]. rewrite length_app.
  specialize (IH (fst (step m s))).
  pose proof (step_credit m s) as Hstep.
  unfold alarmClears in *. simpl filter.
  destruct (clearsAlarm m); simpl List.length; lia.
Qed.

(** X6.  Arrivals are bounded by the clearings of the alarm: a run raises at
    most one arrival more than it has messages that clear the alarm
    (dismissals, new targets, clearings of the target), and no more than
    that number if the alarm is active at its start; and no message raises
    more than one arrival, whatever the state and the message. *)
Theorem arrivals_bounded_by_alarm_clears (ms : list Msg) (s : App) :
  (arrivals ms s <= alarmClears ms + alarmCredit s)%nat /\
  (isAlarmActive s = true -> (arrivals ms s <= alarmClears ms)%nat) /\
  (arrivals ms s <= alarmClears ms + 1)%nat /\
  (forall m, (List.length (snd (step m s)) <= 1)%nat /\
             (arrivals [m] s <= 1)%nat).
Proof.
pose proof (run_credit ms s) as H. unfold arrivals.
assert (Hc : (alarmCredit s <= 1)%nat)
  by (unfold alarmCredit; destruct (isAlarmActive s); lia).
assert (Hone : forall m, (List.length (snd (step m s)) <= 1)%nat).
{ intros m. rewrite step_geofencing.
  pose proof (geofencing_credit (handle m s)) as Hg.
  unfold alarmCredit in Hg.
  destruct (isAlarmActive (handle m s)),
           (isAlarmActive (fst (geofencing (handle m s)))); lia. }
split; [lia | split; [| split; [lia |]]].
- intros Ha. unfold alarmCredit in H. rewrite Ha in H. lia.
- intros m. split; [apply Hone |].
  rewrite run_cons. cbn [snd]. rewrite events_nil, app_nil_r. apply Hone.
Qed.

Lemma arrivals_bounded_by_alarm_clears_witness :
  (arrivals [Fix (northOf origin 200); Fix (northOf origin 90);
             RadiusChange 500] arrived <= 0)%nat.
Proof.
destruct (arrivals_bounded_by_alarm_clears
            [Fix (northOf origin 200); Fix (northOf origin 90);
             RadiusChange 500] arrived) as (_ & H & _).
apply H. reflexivity.
Defined.

(** ** Nothing to raise *)

Lemma handle_keeps_no_position (m : Msg) (s : App) :
  isFix m = false -> userLocation s = None -> userLocation (handle m s) = None.
Proof.
intros Hm Hu. destruct m; simpl in *; try discriminate; try assumption.
- destruct (handleStart_geofence s) as (H & _). congruence.
- destruct (onPositionError_geofence isHighAccuracy error s) as (H & _). congruence.
- unfold handleRadiusChange. destruct (targetLocation s); simpl; assumption.
- destruct (handleCenterLocation_geofence now s) as (H & _). congruence.
Qed.

Lemma handle_keeps_no_target (m : Msg) (s : App) :
  setsTarget m = false -> targetLocation s = None ->
  targetLocation (handle m s) = None.
Proof.
intros Hm Ht. destruct m; simpl in *; try discriminate; try assumption;
  try reflexivity.
- destruct (handleStart_geofence s) as (_ & H & _). congruence.
- destruct (onPositionError_geofence isHighAccuracy error s) as (_ & H & _).
  congruence.
- unfold handleRadiusChange. rewrite Ht. simpl. assumption.
- destruct (handleCenterLocation_geofence now s) as (_ & H & _). congruence.
Qed.

Lemma step_idle (m : Msg) (s : App) :
  userLocation (handle m s) = None \/ targetLocation (handle m s) = None ->
  snd (step m s) = [] /\
  userLocation (fst (step m s)) = userLocation (handle m s) /\
  targetLocation (fst (step m s)) = targetLocation (handle m s).
Proof.
intros H. rewrite step_geofencing, geofencing_idle by assumption.
simpl. auto.
Qed.

Lemma run_silent (ms : list Msg) :
  forall s,
    (userLocation s = None /\ forallb (fun m => negb (isFix m)) ms = true) \/
    (targetLocation s = None /\
     forallb (fun m => negb (setsTarget m)) ms = true) ->
    snd (run ms s) = [].
Proof.
induction ms as [| m ms IH]; intros s H; [reflexivity |].
rewrite run_cons. cbn [snd].
destruct H as [[Hu Hall] | [Ht Hall]]; simpl in Hall;
  apply andb_prop in Hall; destruct Hall as [Hm Hrest];
  apply negb_true_iff in Hm.
- pose proof (handle_keeps_no_position m s Hm Hu) as Hh.
  destruct (step_idle m s (or_introl Hh)) as (He & Hu' & _).
  rewrite He. simpl. apply IH. left. split; [congruence | assumption].
- pose proof (handle_keeps_no_target m s Hm Ht) as Hh.
  destruct (step_idle m s (or_intror Hh)) as (He & _ & Ht').
  rewrite He. simpl. apply IH. right. split; [congruence | assumption].
Qed.

(** X7.  Nothing is raised without a position or without a target: from a
    state with no position, a run without fixes raises no arrival; from a
    state with no target, a run that sets none raises no arrival. *)
Theorem silent_without_position_or_target (ms : list Msg) (s : App) :
  (userLocation s = None /\ forallb (fun m => negb (isFix m)) ms = true) \/
  (targetLocation s = None /\ forallb (fun m => negb (setsTarget m)) ms = true) ->
  snd (run ms s) = [].
Proof. apply run_silent. Qed.

Lemma silent_without_position_or_target_witness :
  snd (run [Fix (northOf origin 50); RadiusChange 5000; DismissAlarm;
            Fix origin] (tracking origin)) = [].
Proof.
apply silent_without_position_or_target.
right. split; reflexivity.
Defined.

(** ** Repetition *)

(** X8.  A fix at the coordinates of the fix before it changes nothing and
    raises nothing, and so does a second change of the radius to the same
    value. *)
Theorem repeated_fix_or_radius_is_noop (s : App) (p : GeoLocation) (r : R) :
  step (Fix p) (fst (step (Fix p) s)) = (fst (step (Fix p) s), []) /\
  step (RadiusChange r) (fst (step (RadiusChange r) s)) =
    (fst (step (RadiusChange r) s), []).
Proof.
split.
- rewrite (step_geofencing (Fix p) (fst (step (Fix p) s))).
  assert (Hh : handle (Fix p) (fst (step (Fix p) s)) = fst (step (Fix p) s)).
  { rewrite step_geofencing.
    destruct s as [hs pe ul tl di tr fr aa ht wi ge].
    unfold geofencing; simpl.
    destruct tl as [t |]; cbv zeta; simpl;
      repeat match goal with
             | |- context [if ?c then _ else _] => destruct c
             end; reflexivity. }
  rewrite Hh. apply step_settled.
- rewrite (step_geofencing (RadiusChange r) (fst (step (RadiusChange r) s))).
  assert (Hh : handle (RadiusChange r) (fst (step (RadiusChange r) s))
               = fst (step (RadiusChange r) s)).
  { rewrite step_geofencing.
    destruct s as [hs pe ul tl di tr fr aa ht wi ge].
    unfold geofencing; simpl.
    destruct ul as [u |], tl as [t |]; cbv zeta; simpl;
      repeat match goal with
             | |- context [if ?c then _ else _] => destruct c
             end; reflexivity. }
  rewrite Hh. apply step_settled.
Qed.

(** ** Clearing the target *)

(** X9.  Clearing the target, the check that follows included, leaves no
    target and no distance, dismisses the alarm and forgets the arrival,
    raises nothing, and keeps the position and the radius setting; the fixes
    that follow raise nothing. *)
Theorem clear_target_resets (s : App) (fixes : list GeoLocation) :
  let s' := fst (step ClearTarget s) in
  snd (step ClearTarget s) = [] /\
  targetLocation s' = None /\
  distance s' = None /\
  isAlarmActive s' = false /\
  armState s' = Armed /\
  userLocation s' = userLocation s /\
  targetRadius s' = targetRadius s /\
  snd (run (map Fix fixes) s') = [].
Proof.
assert (Hstep : step ClearTarget s = (setDistance None (handleClearTarget s), [])).
{ rewrite step_geofencing. apply geofencing_idle. right. reflexivity. }
cbv zeta. rewrite Hstep. cbn [fst snd].
repeat split.
apply run_silent. right. split; [reflexivity |].
induction fixes as [| q fixes IH]; [reflexivity | exact IH].
Qed.

(** ** The geolocation watch *)

Lemma registered_clearWatch (id old : Z) (g : Geolocation) :
  registered id (clearWatch old g) <-> registered id g /\ id <> old.
Proof.
unfold registered, clearWatch; simpl.
induction (watches g) as [| [i o] ws IH]; simpl.
- tauto.
- destruct (Z.eqb_spec i old) as [-> | Hne]; simpl; rewrite IH.
  + split; [tauto |]. intros [[<- | H] Hn]; [congruence | tauto].
  + split; [intros [<- | [H Hn]]; tauto | tauto].
Qed.

Lemma watchesBelow_clearWatch (old : Z) (g : Geolocation) :
  watchesBelow g -> watchesBelow (clearWatch old g).
Proof.
unfold watchesBelow, clearWatch; simpl. intros H.
apply Forall_forall. intros w Hw. apply filter_In in Hw.
rewrite Forall_forall in H. apply H. tauto.
Qed.

Lemma watchesBelow_watchPosition (o : PositionOptions) (g : Geolocation) :
  watchesBelow g -> watchesBelow (snd (watchPosition o g)).
Proof.
unfold watchesBelow, watchPosition; simpl. intros H.
constructor; simpl; [lia |].
eapply Forall_impl; [| exact H]. simpl. intros w Hw. lia.
Qed.

Lemma registered_below (id : Z) (g : Geolocation) :
  watchesBelow g -> registered id g -> (id < nextWatchId g)%Z.
Proof.
unfold watchesBelow, registered. intros H Hin.
apply in_map_iff in Hin. destruct Hin as ([i o] & <- & Hw).
rewrite Forall_forall in H. apply (H _ Hw).
Qed.

Lemma length_clearWatch (old : Z) (g : Geolocation) :
  (List.length (watches (clearWatch old g)) <= List.length (watches g))%nat /\
  (registered old g ->
   (List.length (watches (clearWatch old g)) < List.length (watches g))%nat).
Proof.
unfold registered, clearWatch; simpl.
induction (watches g) as [| [i o] ws [IH1 IH2]]; simpl.
- split; [lia | tauto].
- destruct (Z.eqb_spec i old) as [-> | Hne]; simpl.
  + split; lia.
  + split; [lia |]. intros [H | H]; [congruence | specialize (IH2 H); lia].
Qed.

(** [handleStart] on a browser with the service [g]. *)
Lemma handleStart_watch (s : App) (g : Geolocation) :
  geolocation s = Some g ->
  let g1 := match watchIdRef s with
            | Some old => clearWatch old g
            | None => g
            end in
  watchIdRef (handleStart s) = Some (nextWatchId g1) /\
  geolocation (handleStart s) =
    Some {| watches :=
              (nextWatchId g1,
               {| enableHighAccuracy := true; timeout := 15000;
                  maximumAge := 0 |}) :: watches g1;
            nextWatchId := (nextWatchId g1 + 1)%Z |} /\
  permissionError (handleStart s) = None /\
  hasStarted (handleStart s) = true.
Proof.
destruct s as [hs pe ul tl di tr fr aa ht wi ge]. simpl. intros ->.
destruct wi; simpl; repeat split.
Qed.

Lemma step_watch (m : Msg) (s : App) :
  watchIdRef (fst (step m s)) = watchIdRef (handle m s) /\
  geolocation (fst (step m s)) = geolocation (handle m s) /\
  permissionError (fst (step m s)) = permissionError (handle m s) /\
  hasStarted (fst (step m s)) = hasStarted (handle m s) /\
  userLocation (fst (step m s)) = userLocation (handle m s).
Proof.
rewrite step_geofencing.
destruct (geofencing_frame (handle m s)) as (Hu & _ & _ & Hp & Hw & Hg & _ & Hs).
auto.
Qed.

(** The handlers other than those of the watch leave it alone. *)
Lemma handle_watch_frame (m : Msg) (s : App) :
  match m with Start | WatchError _ _ => False | _ => True end ->
  watchIdRef (handle m s) = watchIdRef s /\
  geolocation (handle m s) = geolocation s.
Proof.
destruct s as [hs pe ul tl di tr fr aa ht wi ge].
destruct m; simpl; try contradiction; intros _; auto.
- unfold handleRadiusChange; simpl. destruct tl; simpl; auto.
- destruct ul; simpl; auto.
Qed.

Lemma onPositionError_watch
    (b : bool) (e : GeolocationPositionError) (s : App) (g : Geolocation) :
  geolocation s = Some g ->
  (b && (Z.eqb (code e) 3 || Z.eqb (code e) 2) = true /\
   watchIdRef (onPositionError b e s) = Some (nextWatchId g) /\
   geolocation (onPositionError b e s) = Some (snd (watchPosition
      {| enableHighAccuracy := false; timeout := 15000; maximumAge := 0 |} g)))
  \/
  (b && (Z.eqb (code e) 3 || Z.eqb (code e) 2) = false /\
   watchIdRef (onPositionError b e s) = watchIdRef s /\
   geolocation (onPositionError b e s) = Some g).
Proof.
destruct s as [hs pe ul tl di tr fr aa ht wi ge]. simpl. intros ->.
unfold onPositionError.
destruct (b && _); simpl; [left | right]; auto.
Qed.

Lemma step_watchCoherent (m : Msg) (s : App) :
  WatchCoherent s -> WatchCoherent (fst (step m s)).
Proof.
unfold WatchCoherent. intros Hs.
destruct (step_watch m s) as (Hw & Hg & _). rewrite Hw, Hg. clear Hw Hg.
destruct m;
  try (match goal with
       | |- context [handle ?m s] =>
           destruct (handle_watch_frame m s I) as [Hw Hg]
       end; rewrite Hw, Hg; exact Hs).
- (* Start *)
  simpl handle.
  destruct (geolocation s) as [g |] eqn:Hgeo.
  + destruct (handleStart_watch s g Hgeo) as (Hw & Hg & _).
    rewrite Hw, Hg. destruct Hs as [Hbelow Href].
    set (g1 := match watchIdRef s with
               | Some old => clearWatch old g | None => g end) in *.
    assert (Hb1 : watchesBelow g1).
    { unfold g1. destruct (watchIdRef s);
        [apply watchesBelow_clearWatch |]; assumption. }
    split.
    * apply (watchesBelow_watchPosition
               {| enableHighAccuracy := true; timeout := 15000;
                  maximumAge := 0 |} g1 Hb1).
    * intros id Hid. injection Hid as <-. left. reflexivity.
  + destruct s as [hs pe ul tl di tr fr aa ht wi ge]. simpl in *. subst.
    reflexivity.
- (* WatchError *)
  simpl handle.
  destruct (geolocation s) as [g |] eqn:Hgeo.
  + destruct Hs as [Hbelow Href].
    destruct (onPositionError_watch isHighAccuracy error s g Hgeo)
      as [(_ & Hw & Hg) | (_ & Hw & Hg)]; rewrite Hw, Hg.
    * split; [apply watchesBelow_watchPosition; assumption |].
      intros id Hid. injection Hid as <-. left. reflexivity.
    * split; assumption.
  + destruct s as [hs pe ul tl di tr fr aa ht wi ge]. simpl in *. subst.
    unfold onPositionError, attemptWatch; simpl.
    destruct (_ && _); reflexivity.
Qed.

Lemma run_watchCoherent (ms : list Msg) :
  forall s, WatchCoherent s -> WatchCoherent (fst (run ms s)).
Proof.
induction ms as [| m ms IH]; intros s Hs; [exact Hs |].
rewrite run_cons. cbn [fst]. apply IH. apply step_watchCoherent. exact Hs.
Qed.

(** X10.  The ref never dangles: on a browser whose service hands out fresh
    ids, in every state reached from mounting the id in [watchIdRef] is that
    of a registered watch, and every registered id is below the next one. *)
Theorem watch_ref_registered
    (g0 : Geolocation) (ms : list Msg) (id : Z) :
  watchesBelow g0 ->
  watchIdRef (fst (run ms (initial (Some g0)))) = Some id ->
  exists g,
    geolocation (fst (run ms (initial (Some g0)))) = Some g /\
    registered id g /\ watchesBelow g.
Proof.
intros Hb Hid.
assert (H0 : WatchCoherent (initial (Some g0))).
{ unfold WatchCoherent; simpl. split; [assumption | discriminate]. }
pose proof (run_watchCoherent ms _ H0) as H. unfold WatchCoherent in H.
destruct (geolocation (fst (run ms (initial (Some g0))))) as [g |].
- exists g. destruct H as [Hbelow Href]. auto.
- congruence.
Qed.

Lemma watch_ref_registered_witness :
  exists g,
    geolocation (fst (run [Start; Fix origin] (initial (Some browser)))) = Some g /\
    registered 1%Z g /\ watchesBelow g.
Proof.
apply (watch_ref_registered browser [Start; Fix origin] 1%Z).
- constructor.
- change (initial (Some browser)) with mounted. rewrite run_tracking. reflexivity.
Defined.

(** X11.  Starting again releases the watch of the ref: with a watch [old]
    in the ref, after [Start] that watch is no longer registered, the ref
    names the one new high-accuracy watch, and the number of registered
    watches has not grown. *)
Theorem start_releases_previous_watch
    (s : App) (g : Geolocation) (old : Z) :
  geolocation s = Some g ->
  watchesBelow g ->
  watchIdRef s = Some old ->
  registered old g ->
  exists g',
    geolocation (fst (step Start s)) = Some g' /\
    ~ registered old g' /\
    watchIdRef (fst (step Start s)) = Some (nextWatchId g) /\
    In (nextWatchId g,
        {| enableHighAccuracy := true; timeout := 15000; maximumAge := 0 |})
       (watches g') /\
    (List.length (watches g') <= List.length (watches g))%nat.
Proof.
intros Hg Hb Hold Hreg.
destruct (step_watch Start s) as (Hw & Hgeo & _).
destruct (handleStart_watch s g Hg) as (Hw' & Hg' & _).
rewrite Hold in Hw', Hg'. simpl handle in Hw, Hgeo.
rewrite Hw, Hgeo, Hw', Hg'.
eexists. split; [reflexivity |].
pose proof (registered_below old g Hb Hreg) as Hlt.
repeat split.
- unfold registered; simpl. intros [H | H].
  + change (nextWatchId g = old) in H. lia.
  + apply (registered_clearWatch old old g) in H. tauto.
- left. reflexivity.
- destruct (length_clearWatch old g) as [_ H]. specialize (H Hreg).
  simpl in *. lia.
Qed.

Lemma start_releases_previous_watch_witness :
  exists g',
    geolocation (fst (step Start (tracking origin))) = Some g' /\
    ~ registered 1%Z g'.
Proof.
destruct (start_releases_previous_watch (tracking origin)
            {| watches := [(1%Z, {| enableHighAccuracy := true;
                                    timeout := 15000; maximumAge := 0 |})];
               nextWatchId := 2 |} 1%Z) as (g' & Hg & Hn & _).
- reflexivity.
- repeat constructor.
- reflexivity.
- left. reflexivity.
- exists g'. split; assumption.
Defined.

(** ** The watch the fallback leaves behind *)

Lemma step_leaked (old : Z) (m : Msg) (s : App) :
  leaked old s -> leaked old (fst (step m s)).
Proof.
unfold leaked. intros (g & Hg & Hreg & Hb & Href).
destruct (step_watch m s) as (Hw & Hgeo & _). rewrite Hw, Hgeo. clear Hw Hgeo.
pose proof (registered_below old g Hb Hreg) as Hlt.
destruct m;
  try (match goal with
       | |- context [handle ?m s] =>
           destruct (handle_watch_frame m s I) as [Hw Hgeo]
       end; rewrite Hw, Hgeo; exists g; auto).
- (* Start *)
  simpl handle. destruct (handleStart_watch s g Hg) as (Hw & Hgeo & _).
  rewrite Hw, Hgeo. eexists. split; [reflexivity |].
  set (g1 := match watchIdRef s with
             | Some i => clearWatch i g | None => g end) in *.
  assert (Hreg1 : registered old g1).
  { unfold g1. destruct (watchIdRef s) as [i |]; [| assumption].
    apply registered_clearWatch. split; [assumption | congruence]. }
  assert (Hb1 : watchesBelow g1).
  { unfold g1. destruct (watchIdRef s);
      [apply watchesBelow_clearWatch |]; assumption. }
  assert (Hn1 : nextWatchId g1 = nextWatchId g).
  { unfold g1. destruct (watchIdRef s); reflexivity. }
  repeat split.
  + right. exact Hreg1.
  + apply (watchesBelow_watchPosition
             {| enableHighAccuracy := true; timeout := 15000;
                maximumAge := 0 |} g1 Hb1).
  + rewrite Hn1. intros H. injection H as H. lia.
- (* WatchError *)
  simpl handle.
  destruct (onPositionError_watch isHighAccuracy error s g Hg)
    as [(_ & Hw & Hgeo) | (_ & Hw & Hgeo)]; rewrite Hw, Hgeo.
  + eexists. split; [reflexivity |]. repeat split.
    * right. exact Hreg.
    * apply watchesBelow_watchPosition; assumption.
    * intros H. injection H as H. lia.
  + exists g. auto.
Qed.

Lemma run_leaked (old : Z) (ms : list Msg) :
  forall s, leaked old s -> leaked old (fst (run ms s)).
Proof.
induction ms as [| m ms IH]; intros s Hs; [exact Hs |].
rewrite run_cons. cbn [fst]. apply IH. apply step_leaked. exact Hs.
Qed.

Lemma unmount_leaked (old : Z) (s : App) :
  leaked old s ->
  exists g, geolocation (unmount s) = Some g /\ registered old g.
Proof.
intros (g & Hg & Hreg & Hb & Href).
destruct s as [hs pe ul tl di tr fr aa ht wi ge]. simpl in *. subst.
unfold unmount; simpl. destruct wi as [i |]; simpl.
- eexists. split; [reflexivity |].
  apply registered_clearWatch. split; [assumption | congruence].
- exists g. auto.
Qed.

(** X12.  The fallback leaves the failed watch behind: when the
    high-accuracy watch [old] of the ref reports a timeout or an unavailable
    position, the low-accuracy watch is started without clearing it; [old]
    then stays registered through whatever messages follow, a new [Start]
    included, and through the cleanup on unmount. *)
Theorem fallback_leaves_watch_registered
    (s : App) (g : Geolocation) (old : Z)
    (error : GeolocationPositionError) (ms : list Msg) :
  geolocation s = Some g ->
  watchesBelow g ->
  watchIdRef s = Some old ->
  registered old g ->
  code error = 3%Z \/ code error = 2%Z ->
  let s' := fst (run (WatchError true error :: ms) s) in
  (exists g', geolocation s' = Some g' /\ registered old g') /\
  (exists g', geolocation (unmount s') = Some g' /\ registered old g').
Proof.
intros Hg Hb Hold Hreg Hcode s'.
assert (Hl : leaked old s').
{ unfold s'. rewrite run_cons. cbn [fst]. apply run_leaked.
  unfold leaked.
  destruct (step_watch (WatchError true error) s) as (Hw & Hgeo & _).
  rewrite Hw, Hgeo. simpl handle.
  pose proof (registered_below old g Hb Hreg) as Hlt.
  destruct (onPositionError_watch true error s g Hg)
    as [(_ & Hw' & Hgeo') | (Hf & _)].
  - rewrite Hw', Hgeo'. eexists. split; [reflexivity |]. repeat split.
    + right. exact Hreg.
    + apply watchesBelow_watchPosition; assumption.
    + intros H. injection H as H. lia.
  - exfalso. destruct Hcode as [Hc | Hc]; rewrite Hc in Hf; discriminate Hf. }
split.
- destruct Hl as (g' & Hg' & Hreg' & _). exists g'. auto.
- apply unmount_leaked. exact Hl.
Qed.

Lemma fallback_leaves_watch_registered_witness :
  exists g',
    geolocation
      (unmount (fst (run [WatchError true (mkError 3 "Timeout expired");
                          Fix origin; Start] (tracking origin)))) = Some g' /\
    registered 1%Z g'.
Proof.
destruct (fallback_leaves_watch_registered (tracking origin)
            {| watches := [(1%Z, {| enableHighAccuracy := true;
                                    timeout := 15000; maximumAge := 0 |})];
               nextWatchId := 2 |} 1%Z
            (mkError 3 "Timeout expired") [Fix origin; Start]) as [_ H].
- reflexivity.
- repeat constructor.
- reflexivity.
- left. reflexivity.
- left. reflexivity.
- exact H.
Defined.

(** ** The browser without geolocation *)

(** X13.  On a browser without a geolocation service [Start] registers no
    watch and displays that geolocation is not supported; the permission
    modal stays, not loading, with its button to try again. *)
Theorem start_without_geolocation (s : App) :
  geolocation s = None ->
  watchIdRef s = None ->
  let s' := fst (step Start s) in
  permissionError s' =
    Some "Geolocation is not supported by your browser"%string /\
  geolocation s' = None /\
  watchIdRef s' = None /\
  hasStarted s' = true /\
  isLoading s' = false /\
  (userLocation s = None -> showsPermissionModal s' = true).
Proof.
intros Hg Href s'. unfold s'.
destruct (step_watch Start s) as (Hw & Hgeo & Hp & Hs & Hu).
unfold isLoading, showsPermissionModal, noError, hasPosition.
rewrite Hw, Hgeo, Hp, Hs, Hu. clear Hw Hgeo Hp Hs Hu.
destruct s as [hs pe ul tl di tr fr aa ht wi ge]. simpl in *. subst.
simpl; repeat split;
  try (rewrite andb_false_r; reflexivity);
  intros ->; reflexivity.
Qed.

Lemma start_without_geolocation_witness :
  permissionError (fst (step Start (initial None))) =
  Some "Geolocation is not supported by your browser"%string.
Proof.
apply (start_without_geolocation (initial None)); reflexivity.
Defined.

(** ** What is rendered *)

Lemma handle_keeps_started_and_position (m : Msg) (s : App) :
  hasStarted s = true -> hasPosition s = true ->
  hasStarted (handle m s) = true /\ hasPosition (handle m s) = true.
Proof.
destruct s as [hs pe ul tl di tr fr aa ht wi ge].
unfold hasPosition; simpl. intros -> Hu.
destruct ul as [u |]; [| discriminate].
destruct m; simpl; auto.
- destruct wi, ge; simpl; auto.
- unfold onPositionError. destruct (_ && _); [destruct ge |]; simpl; auto.
- unfold handleRadiusChange; simpl. destruct tl; simpl; auto.
Qed.

(** X14.  Once the component has started and has a position, the permission
    modal never shows again and the map stays, whatever messages follow:
    no handler resets [hasStarted] or forgets the position. *)
Theorem modal_never_returns (ms : list Msg) (s : App) :
  hasStarted s = true ->
  hasPosition s = true ->
  showsPermissionModal (fst (run ms s)) = false /\
  isLoading (fst (run ms s)) = false /\
  showsMap (fst (run ms s)) = true.
Proof.
revert s. induction ms as [| m ms IH]; intros s Hs Hp.
- unfold showsPermissionModal, isLoading, showsMap. simpl.
  rewrite Hs, Hp. auto.
- rewrite run_cons. cbn [fst].
  destruct (handle_keeps_started_and_position m s Hs Hp) as [Hs' Hp'].
  destruct (step_watch m s) as (_ & _ & _ & Hst & Hu).
  apply IH; [congruence |].
  unfold hasPosition in *. rewrite Hu. exact Hp'.
Qed.

Lemma modal_never_returns_witness :
  showsPermissionModal
    (fst (run [WatchError false (mkError 1 "User denied Geolocation");
               ClearTarget; Start] (tracking origin))) = false.
Proof.
apply (modal_never_returns
         [WatchError false (mkError 1 "User denied Geolocation");
          ClearTarget; Start] (tracking origin)); reflexivity.
Defined.

(** X15.  Loading ends with an error: on a browser with geolocation and no
    position yet, [Start] puts the modal in its loading state; any error
    that is then surfaced (permission denied, or a failure of the
    low-accuracy watch) ends the loading state and keeps the modal, with the
    message shown and the button to try again; the fallback from high to low
    accuracy keeps the loading state; and a fix that arrives after the error
    clears the message and closes the modal. *)
Theorem loading_until_error
    (s : App) (g : Geolocation) (error : GeolocationPositionError) :
  geolocation s = Some g ->
  userLocation s = None ->
  let started := fst (step Start s) in
  isLoading started = true /\
  showsPermissionModal started = true /\
  isLoading (fst (step (WatchError false error) started)) = false /\
  showsPermissionModal (fst (step (WatchError false error) started)) = true /\
  (code error = 1%Z ->
   isLoading (fst (step (WatchError true error) started)) = false /\
   showsPermissionModal (fst (step (WatchError true error) started)) = true) /\
  (code error = 3%Z \/ code error = 2%Z ->
   isLoading (fst (step (WatchError true error) started)) = true) /\
  (forall p,
     let located :=
       fst (step (Fix p) (fst (step (WatchError false error) started))) in
     permissionError located = None /\
     showsPermissionModal located = false).
Proof.
intros Hg Hu started.
assert (Hst : hasStarted started = true /\ userLocation started = None /\
              permissionError started = None).
{ unfold started. destruct (step_watch Start s) as (_ & _ & Hp & Hs & Hu').
  rewrite Hp, Hs, Hu'. simpl handle.
  destruct (handleStart_watch s g Hg) as (_ & _ & Hp' & Hs').
  destruct (handleStart_geofence s) as (Hu'' & _).
  rewrite Hp', Hs', Hu''. auto. }
destruct Hst as (Hs & Hun & Hp).
assert (Herr : forall b,
           hasStarted (fst (step (WatchError b error) started)) = true /\
           userLocation (fst (step (WatchError b error) started)) = None).
{ intros b. destruct (step_watch (WatchError b error) started)
    as (_ & _ & _ & Hs' & Hu').
  rewrite Hs', Hu'. simpl handle.
  destruct (onPositionError_geofence b error started) as (Hu'' & _).
  rewrite Hu''. split; [| assumption].
  destruct started as [hs pe ul tl di tr fr aa ht wi ge]. simpl in *. subst.
  unfold onPositionError. destruct (_ && _); [destruct ge |]; reflexivity. }
assert (Hmsg : forall b,
           b && (Z.eqb (code error) 3 || Z.eqb (code error) 2) = false ->
           noError (fst (step (WatchError b error) started)) = false).
{ intros b Hb. unfold noError.
  destruct (step_watch (WatchError b error) started) as (_ & _ & Hp' & _).
  rewrite Hp'. simpl handle. unfold onPositionError. rewrite Hb. simpl.
  destruct (String.eqb_spec (errorMessage error) "") as [He | He];
    [| reflexivity].
  exfalso. exact (errorMessage_nonempty error He). }
unfold isLoading, showsPermissionModal, hasPosition.
repeat split.
- rewrite Hs, Hun. unfold noError. rewrite Hp. reflexivity.
- rewrite Hun. apply orb_true_r.
- destruct (Herr false) as [Hs' Hu']. rewrite Hs', Hu', (Hmsg false eq_refl).
  reflexivity.
- destruct (Herr false) as [Hs' Hu']. rewrite Hu'. apply orb_true_r.
- destruct (Herr true) as [Hs' Hu']. rewrite Hs', Hu'.
  rewrite (Hmsg true); [reflexivity |].
  match goal with Hc : code error = 1%Z |- _ => rewrite Hc end. reflexivity.
- destruct (Herr true) as [_ Hu']. rewrite Hu'. apply orb_true_r.
- intros Hc. destruct (Herr true) as [Hs' Hu']. rewrite Hs', Hu'.
  unfold noError.
  destruct (step_watch (WatchError true error) started) as (_ & _ & Hp' & _).
  rewrite Hp'. simpl handle. unfold onPositionError.
  assert (Hb : (Z.eqb (code error) 3 || Z.eqb (code error) 2) = true)
    by (destruct Hc as [-> | ->]; reflexivity).
  rewrite Hb. simpl.
  destruct started as [hs pe ul tl di tr fr aa ht wi ge]. simpl in *. subst.
  unfold attemptWatch; simpl. destruct ge; reflexivity.
- destruct (step_watch (Fix p) (fst (step (WatchError false error) started)))
    as (_ & _ & Hp' & _).
  rewrite Hp'. reflexivity.
- destruct (step_watch (Fix p) (fst (step (WatchError false error) started)))
    as (_ & _ & _ & Hs' & Hu').
  rewrite Hs', Hu'. simpl handle. simpl.
  destruct (Herr false) as [Hs'' _]. rewrite Hs''. reflexivity.
Qed.

Lemma loading_until_error_witness :
  isLoading (fst (step Start mounted)) = true /\
  isLoading (fst (step (WatchError false (mkError 3 "Timeout expired"))
                    (fst (step Start mounted)))) = false.
Proof.
destruct (loading_until_error mounted browser (mkError 3 "Timeout expired"))
  as (H1 & _ & H2 & _); try reflexivity.
split; assumption.
Defined.

(** ** The alarm sound *)

(** X16.  The fallback sound is never switched to: the fallback address is
    the primary one, so that an audio error leaves the source as it is, from
    the first error on; for any source, the source after an error is the
    fallback address, and a second error changes nothing. *)
Theorem audio_fallback_is_primary (audioSrc : string) (errors : nat) :
  Nat.iter errors handleAudioError LOCAL_AUDIO_PATH = LOCAL_AUDIO_PATH /\
  handleAudioError audioSrc = FALLBACK_AUDIO_URL /\
  handleAudioError (handleAudioError audioSrc) = handleAudioError audioSrc.
Proof.
assert (Hany : forall src, handleAudioError src = FALLBACK_AUDIO_URL).
{ intros src. unfold handleAudioError.
  destruct (String.eqb_spec src FALLBACK_AUDIO_URL); congruence. }
repeat split.
- induction errors as [| n IH]; [reflexivity |].
  simpl. rewrite IH. reflexivity.
- apply Hany.
- rewrite !Hany. reflexivity.
Qed.

(** ** The map controller *)

Lemma mapController_ref (request : option FocusRequest) (last : Z) :
  (last <= snd (mapController request last))%Z /\
  (forall r, request = Some r ->
     (requestedAt r <= snd (mapController request last))%Z).
Proof.
unfold mapController. destruct request as [r |]; simpl.
- destruct (Z.ltb_spec last (requestedAt r)); simpl; split; try lia;
    intros r' Hr; injection Hr as <-; lia.
- split; [lia | discriminate].
Qed.

Lemma mapFlights_ref (requests : list (option FocusRequest)) :
  forall last,
    (last <= snd (mapFlights requests last))%Z /\
    (forall r, In (Some r) requests ->
       (requestedAt r <= snd (mapFlights requests last))%Z).
Proof.
induction requests as [| q requests IH]; intros last; simpl.
- split; [lia | contradiction].
- destruct (mapController_ref q last) as [H1 H2].
  destruct (mapController q last) as [flight last1] eqn:Hc. simpl in H1, H2.
  destruct (IH last1) as [H3 H4].
  destruct (mapFlights requests last1) as [flights last2]. simpl in *.
  split; [lia |].
  intros r [Hr | Hr]; [specialize (H2 r Hr); lia | apply H4; assumption].
Qed.

(** X17.  The map flies to a focus request only if it is newer than every
    request the controller has seen: after any run of requests, a request
    whose timestamp is not above the initial value of the ref and those of
    all requests of the run is ignored, and leaves the ref as it is.  In
    particular the request of the run's last render, rendered again, and a
    request made in the same millisecond as an earlier one, fly nowhere. *)
Theorem stale_focus_request_ignored
    (requests : list (option FocusRequest)) (last : Z)
    (seen late : FocusRequest) :
  (In (Some seen) requests /\ (requestedAt late <= requestedAt seen)%Z) \/
  (requestedAt late <= last)%Z ->
  mapController (Some late) (snd (mapFlights requests last)) =
  (None, snd (mapFlights requests last)).
Proof.
intros H. destruct (mapFlights_ref requests last) as [H1 H2].
unfold mapController.
destruct (Z.ltb_spec (snd (mapFlights requests last)) (requestedAt late))
  as [Hlt | Hge]; [| reflexivity].
exfalso. destruct H as [[Hin Hle] | Hle].
- specialize (H2 seen Hin). lia.
- lia.
Qed.

Lemma stale_focus_request_ignored_witness :
  mapController (Some (mkFocus (northOf origin 80) 1700000000000))
    (snd (mapFlights [Some (mkFocus origin 1700000000000)] 0)) =
  (None, snd (mapFlights [Some (mkFocus origin 1700000000000)] 0)).
Proof.
apply (stale_focus_request_ignored
         [Some (mkFocus origin 1700000000000)] 0
         (mkFocus origin 1700000000000)).
left. split; [left; reflexivity | simpl; lia].
Defined.

(** X18.  A focus request newer than the ref makes the map fly to its
    location exactly once, however often it is rendered: the first render
    flies and moves the ref to its timestamp, the renders after it do
    nothing. *)
Theorem fresh_focus_request_flies_once
    (r : FocusRequest) (last : Z) (renders : nat) :
  (last < requestedAt r)%Z ->
  mapFlights (repeat (Some r) (S renders)) last = ([location r], requestedAt r).
Proof.
intros Hlt.
assert (Hrest : forall n,
           mapFlights (repeat (Some r) n) (requestedAt r) = ([], requestedAt r)).
{ induction n as [| n IH]; [reflexivity |].
  simpl. rewrite Z.ltb_irrefl, IH. reflexivity. }
simpl. apply Z.ltb_lt in Hlt. rewrite Hlt, Hrest. reflexivity.
Qed.

Lemma fresh_focus_request_flies_once_witness :
  mapFlights (repeat (Some (mkFocus origin 1700000000000)) 3) 0 =
  ([origin], 1700000000000%Z).
Proof.
apply (fresh_focus_request_flies_once (mkFocus origin 1700000000000) 0 2).
simpl. lia.
Defined.

(** ** The arrival message *)

(** X19.  The arrival message is never empty: a response with text that is
    not empty gives that text, and a response without text, with empty
    text, or an exception of the call gives the default message. *)
Theorem arrival_message_never_empty (outcome : Generation) :
  generateArrivalMessage outcome <> ""%string /\
  (forall text, text <> ""%string ->
     generateArrivalMessage (Responded (Some text)) = text) /\
  (generateArrivalMessage outcome = defaultArrivalMessage \/
   outcome = Responded (Some (generateArrivalMessage outcome))) /\
  generateArrivalMessage Threw = defaultArrivalMessage /\
  generateArrivalMessage (Responded None) = defaultArrivalMessage /\
  generateArrivalMessage (Responded (Some ""%string)) = defaultArrivalMessage.
Proof.
repeat split.
- destruct outcome as [[text |] |]; simpl; try discriminate.
  destruct (String.eqb_spec text ""); [discriminate | assumption].
- intros text Htext. simpl.
  destruct (String.eqb_spec text ""); [contradiction | reflexivity].
- destruct outcome as [[text |] |]; simpl; auto.
  destruct (String.eqb_spec text ""); auto.
Qed.

Lemma arrival_message_never_empty_witness :
  generateArrivalMessage (Responded (Some "Time to get off."%string))
  = "Time to get off."%string.
Proof.
destruct (arrival_message_never_empty
            (Responded (Some "Time to get off."%string))) as (_ & H & _).
apply H. discriminate.
Defined.

(** ** More on the distance *)

(** The central angle of two points whose haversine argument is the squared
    sine of an angle of [-PI/2, PI/2] is twice that angle, sign dropped. *)
Lemma central_angle_sin (theta : R) :
  - (PI / 2) <= theta <= PI / 2 ->
  Math.atan2 (sqrt (sin theta * sin theta)) (sqrt (1 - sin theta * sin theta))
  = Rabs theta.
Proof.
intros Ht. pose proof PI_RGT_0 as Hpi.
assert (Hsq : forall x, sqrt (x * x) = Rabs x)
  by (intros x; apply (sqrt_Rsqr_abs x)).
replace (1 - sin theta * sin theta) with (cos theta * cos theta)
  by (pose proof (sin2_cos2 theta) as H; unfold Rsqr in H; lra).
rewrite !Hsq.
assert (Habs : 0 <= Rabs theta <= PI / 2)
  by (split; [apply Rabs_pos | apply Rabs_le; lra]).
assert (Hsin : Rabs (sin theta) = sin (Rabs theta)).
{ unfold Rabs at 2. destruct (Rcase_abs theta) as [Hneg | Hpos].
  - rewrite sin_neg. apply Rabs_left1.
    rewrite <- (Ropp_involutive theta), sin_neg.
    assert (0 <= sin (- theta)) by (apply sin_ge_0; lra). lra.
  - apply Rabs_pos_eq. apply sin_ge_0; lra. }
assert (Hcos : Rabs (cos theta) = cos (Rabs theta)).
{ unfold Rabs at 2. destruct (Rcase_abs theta) as [Hneg | Hpos].
  - rewrite cos_neg. apply Rabs_pos_eq. apply cos_ge_0; lra.
  - apply Rabs_pos_eq. apply cos_ge_0; lra. }
rewrite Hsin, Hcos.
destruct Habs as [H0 [Hlt | Heq]].
- apply atan2_sin_cos. lra.
- rewrite Heq, sin_PI2, cos_PI2. apply atan2_zero_pos. lra.
Qed.

(** X20.  The distance is never negative and never more than half the
    circumference of the sphere, 6,371,000 PI metres. *)
Theorem distance_within_half_circumference (a b : GeoLocation) :
  0 <= calculateDistance a b <= 6371000 * PI.
Proof.
split; [apply calculateDistance_nonneg |].
rewrite calculateDistance_haversine. unfold haversineFormula.
match goal with
| |- 2 * _ * asin ?x <= _ => pose proof (asin_bound x) as H
end.
lra.
Qed.

(** X21.  Along a meridian, and along the equator, the distance is the arc:
    for two points of the same longitude no more than 180 degrees of
    latitude apart, and for two points of latitude 0 no more than 180
    degrees of longitude apart, it is 6,371,000 times the difference of the
    coordinate in radians. *)
Theorem distance_along_meridian_and_equator (a b : GeoLocation) :
  (lng a = lng b -> Rabs (lat b - lat a) <= 180 ->
   calculateDistance a b = 6371000 * (Rabs (lat b - lat a) * PI / 180)) /\
  (lat a = 0 -> lat b = 0 -> Rabs (lng b - lng a) <= 180 ->
   calculateDistance a b = 6371000 * (Rabs (lng b - lng a) * PI / 180)).
Proof.
pose proof PI_RGT_0 as Hpi.
assert (Hscale : forall x, Rabs (x * PI / 180 / 2) = Rabs x * PI / 360).
{ intros x. replace (x * PI / 180 / 2) with (x * (PI / 360)) by field.
  rewrite Rabs_mult, (Rabs_pos_eq (PI / 360)) by lra. field. }
assert (Hrange : forall x, Rabs x <= 180 ->
                   - (PI / 2) <= x * PI / 180 / 2 <= PI / 2).
{ intros x Hx.
  assert (Hb : Rabs (x * PI / 180 / 2) <= PI / 2)
    by (rewrite Hscale; pose proof (Rabs_pos x); nra).
  revert Hb. unfold Rabs. destruct (Rcase_abs (x * PI / 180 / 2)); lra. }
split.
- intros Hl Hd. unfold calculateDistance, haversine_a; cbv zeta.
  rewrite Hl. replace ((lng b - lng b) * PI / 180 / 2) with 0 by field.
  rewrite sin_0.
  replace (sin ((lat b - lat a) * PI / 180 / 2) *
           sin ((lat b - lat a) * PI / 180 / 2) + _ * _ * 0 * 0)
    with (sin ((lat b - lat a) * PI / 180 / 2) *
          sin ((lat b - lat a) * PI / 180 / 2)) by ring.
  rewrite central_angle_sin by (apply Hrange; assumption).
  rewrite Hscale. field.
- intros Ha Hb Hd. unfold calculateDistance, haversine_a; cbv zeta.
  rewrite Ha, Hb.
  replace ((0 - 0) * PI / 180 / 2) with 0 by field.
  replace (0 * PI / 180) with 0 by field.
  rewrite sin_0, cos_0.
  replace (0 * 0 + 1 * 1 * sin ((lng b - lng a) * PI / 180 / 2) *
           sin ((lng b - lng a) * PI / 180 / 2))
    with (sin ((lng b - lng a) * PI / 180 / 2) *
          sin ((lng b - lng a) * PI / 180 / 2)) by ring.
  rewrite central_angle_sin by (apply Hrange; assumption).
  rewrite Hscale. field.
Qed.

Lemma distance_along_meridian_and_equator_witness :
  calculateDistance (mkGeo 10 20) (mkGeo 11 20) = 6371000 * (1 * PI / 180).
Proof.
destruct (distance_along_meridian_and_equator (mkGeo 10 20) (mkGeo 11 20))
  as [H _].
replace 1 with (Rabs (11 - 10)) at 1
  by (replace (11 - 10) with 1 by ring; apply Rabs_R1).
apply H.
- reflexivity.
- simpl. replace (11 - 10) with 1 by ring. rewrite Rabs_R1. lra.
Defined.

(** X22.  The distance depends on the longitudes through their difference
    only, and on that difference modulo a full turn: moving both points by
    the same longitude, or one point by 360 degrees, or mirroring both in
    the equator, leaves the distance as it is. *)
Theorem distance_invariances (a b : GeoLocation) (delta : R) :
  calculateDistance (mkGeo (lat a) (lng a + delta)) (mkGeo (lat b) (lng b + delta))
  = calculateDistance a b /\
  calculateDistance a (mkGeo (lat b) (lng b + 360)) = calculateDistance a b /\
  calculateDistance a (mkGeo (lat b) (lng b - 360)) = calculateDistance a b /\
  calculateDistance (mkGeo (- lat a) (lng a)) (mkGeo (- lat b) (lng b))
  = calculateDistance a b.
Proof.
assert (Ha : forall p q, haversine_a p q = haversine_a a b ->
                         calculateDistance p q = calculateDistance a b).
{ intros p q H. unfold calculateDistance; cbv zeta. rewrite H. reflexivity. }
repeat split; apply Ha; unfold haversine_a; cbv zeta; simpl.
- replace (lng b + delta - (lng a + delta)) with (lng b - lng a) by ring.
  reflexivity.
- replace ((lng b + 360 - lng a) * PI / 180 / 2)
    with ((lng b - lng a) * PI / 180 / 2 + PI) by field.
  rewrite neg_sin. ring.
- replace ((lng b - lng a) * PI / 180 / 2)
    with ((lng b - 360 - lng a) * PI / 180 / 2 + PI) by field.
  rewrite neg_sin. ring.
- replace ((- lat b - - lat a) * PI / 180 / 2)
    with (- ((lat b - lat a) * PI / 180 / 2)) by field.
  replace (- lat a * PI / 180) with (- (lat a * PI / 180)) by field.
  replace (- lat b * PI / 180) with (- (lat b * PI / 180)) by field.
  rewrite sin_neg, !cos_neg. ring.
Qed.

(** ** The labels *)

Lemma Math_round_bound (x : R) :
  IZR (Math_round x) - 1 / 2 <= x < IZR (Math_round x) + 1 / 2.
Proof.
unfold Math_round. pose proof (Zfloor_bound (x + 1 / 2)). lra.
Qed.

Lemma Math_round_eq (x : R) (k : Z) :
  IZR k - 1 / 2 <= x < IZR k + 1 / 2 -> Math_round x = k.
Proof.
intros H. unfold Math_round. apply Zfloor_eq. lra.
Qed.

Lemma Math_round_le (x y : R) : x <= y -> (Math_round x <= Math_round y)%Z.
Proof.
intros H. unfold Math_round. apply Zfloor_le. lra.
Qed.

Lemma Math_round_lt_iff (x : R) (k : Z) :
  (Math_round x < k)%Z <-> x < IZR k - 1 / 2.
Proof.
pose proof (Math_round_bound x) as Hb. split; intros H.
- apply IZR_lt in H.
  assert (IZR (Math_round x) + 1 <= IZR k).
  { rewrite <- plus_IZR. apply IZR_le. apply lt_IZR in H. lia. }
  lra.
- apply lt_IZR. lra.
Qed.

(** The text of an integer never starts with the sign [<]. *)
Lemma showInt_head (z : Z) :
  exists c rest, showInt z = String c rest /\ c <> "<"%char.
Proof.
unfold showInt. destruct (Z.to_int z) as [d | d]; simpl.
- destruct d; simpl; do 2 eexists; (split; [reflexivity | discriminate]).
- do 2 eexists. split; [reflexivity | discriminate].
Qed.

Lemma formatDuration_under_a_minute (seconds : R) :
  formatDuration seconds = "< 1 min"%string <-> seconds < 30.
Proof.
unfold formatDuration; cbv zeta.
assert (Hiff : (durationMinutes seconds < 1)%Z <-> seconds < 30).
{ unfold durationMinutes. rewrite Math_round_lt_iff. split; intros; lra. }
destruct (Z.ltb_spec (durationMinutes seconds) 1) as [Hlt | Hge].
- split; [intros _; apply Hiff; assumption | reflexivity].
- split.
  + intros H. exfalso.
    destruct (durationMinutes seconds <? 60)%Z;
      [| destruct (0 <? Z.rem (durationMinutes seconds) 60)%Z].
    * destruct (showInt_head (durationMinutes seconds)) as (c & rest & Hs & Hc).
      rewrite Hs in H. simpl in H. injection H as H _. congruence.
    * destruct (showInt_head (durationMinutes seconds / 60)) as (c & rest & Hs & Hc).
      rewrite Hs in H. simpl in H. injection H as H _. congruence.
    * destruct (showInt_head (durationMinutes seconds / 60)) as (c & rest & Hs & Hc).
      rewrite Hs in H. simpl in H. injection H as H _. congruence.
  + intros H. apply Hiff in H. lia.
Qed.

(** X23.  Travel times under a minute: the walking time reads "< 1 min"
    exactly for distances below 42 m, the bus time exactly below 207 m, the
    car time exactly below 417 m (half a minute at 1.4, 6.9 and 13.9
    m/s). *)
Theorem travel_time_under_a_minute (distanceMeters : R) :
  (walk (estimateTravelTime distanceMeters) = "< 1 min"%string
   <-> distanceMeters < 42) /\
  (bus (estimateTravelTime distanceMeters) = "< 1 min"%string
   <-> distanceMeters < 207) /\
  (car (estimateTravelTime distanceMeters) = "< 1 min"%string
   <-> distanceMeters < 417).
Proof.
unfold estimateTravelTime; simpl.
rewrite !formatDuration_under_a_minute.
unfold SPEED_WALK, SPEED_BUS, SPEED_CAR.
repeat split; intros; lra.
Qed.

Lemma travel_time_under_a_minute_witness :
  walk (estimateTravelTime 40) = "< 1 min"%string.
Proof.
apply (travel_time_under_a_minute 40). lra.
Defined.

(** X24.  Hours and minutes: from half a minute up to 59.5 minutes a
    duration reads "N min" with N from 1 to 59; from 59.5 minutes on it reads
    "H hr" or "H hr M min" with H at least 1 and M from 1 to 59, where
    60 H + M is the duration rounded to the minute; "60 min" and "0 min"
    are never shown. *)
Theorem duration_hours_and_minutes (seconds : R) :
  (30 <= seconds < 3570 ->
   (1 <= durationMinutes seconds <= 59)%Z /\
   formatDuration seconds =
     (showInt (durationMinutes seconds) ++ " min")%string) /\
  (3570 <= seconds ->
   exists hrs mins : Z,
     (1 <= hrs)%Z /\ (0 <= mins <= 59)%Z /\
     durationMinutes seconds = (60 * hrs + mins)%Z /\
     formatDuration seconds =
       if (mins =? 0)%Z then (showInt hrs ++ " hr")%string
       else (showInt hrs ++ " hr " ++ showInt mins ++ " min")%string).
Proof.
split.
- intros [Hlo Hhi].
  assert (H1 : (1 <= durationMinutes seconds)%Z).
  { apply Z.nlt_ge. intros H. apply Math_round_lt_iff in H. lra. }
  assert (H2 : (durationMinutes seconds < 60)%Z).
  { apply Math_round_lt_iff. lra. }
  split; [lia |]. unfold formatDuration; cbv zeta.
  destruct (Z.ltb_spec (durationMinutes seconds) 1); [lia |].
  destruct (Z.ltb_spec (durationMinutes seconds) 60); [reflexivity | lia].
- intros Hlo.
  assert (H1 : (60 <= durationMinutes seconds)%Z).
  { apply Z.nlt_ge. intros H. apply Math_round_lt_iff in H. lra. }
  exists (durationMinutes seconds / 60)%Z, (durationMinutes seconds mod 60)%Z.
  pose proof (Z.mod_pos_bound (durationMinutes seconds) 60 ltac:(lia)) as Hm.
  pose proof (Z.div_mod (durationMinutes seconds) 60 ltac:(lia)) as Hd.
  assert (Hq : (1 <= durationMinutes seconds / 60)%Z)
    by (apply Z.div_le_lower_bound; lia).
  repeat split; try lia.
  unfold formatDuration; cbv zeta.
  destruct (Z.ltb_spec (durationMinutes seconds) 1); [lia |].
  destruct (Z.ltb_spec (durationMinutes seconds) 60); [lia |].
  rewrite Z.rem_mod_nonneg by lia.
  destruct (Z.ltb_spec 0 (durationMinutes seconds mod 60));
    destruct (Z.eqb_spec (durationMinutes seconds mod 60) 0);
    try reflexivity; lia.
Qed.

Lemma duration_hours_and_minutes_witness :
  formatDuration 3600 = "1 hr"%string /\
  formatDuration 1800 = "30 min"%string.
Proof.
destruct (duration_hours_and_minutes 3600) as [_ H].
destruct (duration_hours_and_minutes 1800) as [H' _].
assert (H60 : durationMinutes 3600 = 60%Z)
  by (apply Math_round_eq; lra).
assert (H30 : durationMinutes 1800 = 30%Z)
  by (apply Math_round_eq; lra).
split.
- destruct H as (hrs & mins & Hh & Hm & Hd & Hf); [lra |].
  rewrite H60 in Hd.
  assert (hrs = 1%Z /\ mins = 0%Z) as [-> ->] by lia.
  exact Hf.
- destruct H' as [_ Hf]; [lra |]. rewrite H30 in Hf. exact Hf.
Defined.

(** X25.  The slower the mode, the longer the time: for a distance that is
    not negative the minutes by car are at most those by bus, which are at
    most those on foot; and the minutes of each mode do not decrease with
    the distance. *)
Theorem travel_minutes_ordered (d d' : R) :
  0 <= d <= d' ->
  (durationMinutes (d / SPEED_CAR) <= durationMinutes (d / SPEED_BUS))%Z /\
  (durationMinutes (d / SPEED_BUS) <= durationMinutes (d / SPEED_WALK))%Z /\
  (durationMinutes (d / SPEED_WALK) <= durationMinutes (d' / SPEED_WALK))%Z /\
  (durationMinutes (d / SPEED_BUS) <= durationMinutes (d' / SPEED_BUS))%Z /\
  (durationMinutes (d / SPEED_CAR) <= durationMinutes (d' / SPEED_CAR))%Z.
Proof.
intros [H0 Hle]. unfold durationMinutes, SPEED_CAR, SPEED_BUS, SPEED_WALK.
repeat split; apply Math_round_le; lra.
Qed.

Lemma travel_minutes_ordered_witness :
  (durationMinutes (1000 / SPEED_CAR) <= durationMinutes (1000 / SPEED_BUS))%Z.
Proof.
apply (travel_minutes_ordered 1000 2000). lra.
Defined.



(** ** Recentring and searching *)

(** X27.  Focus requests.  Recentring is no event of the geofence: on a
    state the component has reached, it raises nothing and changes nothing
    but the focus request, and without a position it changes nothing at all;
    with a position [u] the request makes the map fly to [u] if its time is
    above the ref of the controller.  The choice of a search result makes
    the map fly to the result, which is the new target, with the radius of
    the slider. *)
Theorem focus_requests
    (s : App) (now last : Z) (loc : GeoLocation) (name : string) :
  settled s ->
  (last < now)%Z ->
  snd (step (CenterLocation now) s) = [] /\
  (userLocation s = None -> fst (step (CenterLocation now) s) = s) /\
  (forall u, userLocation s = Some u ->
     fst (step (CenterLocation now) s) =
       setFocusRequest (Some (mkFocus u now)) s /\
     mapController (focusRequest (fst (step (CenterLocation now) s))) last
       = (Some u, now)) /\
  mapController (focusRequest (fst (step (SearchSelect loc name now) s))) last
    = (Some loc, now) /\
  targetLocation (fst (step (SearchSelect loc name now) s))
    = Some (mkTarget loc (targetRadius s) now).
Proof.
intros Hs Hlt.
assert (Hc : step (CenterLocation now) s = (handleCenterLocation now s, [])).
{ rewrite step_geofencing. simpl handle.
  destruct (handleCenterLocation_geofence now s) as (Hu & Ht & _ & Ha & Hg & Hd).
  apply (settled_same_dependencies s); assumption. }
apply Z.ltb_lt in Hlt.
rewrite Hc. cbn [fst snd]. repeat split.
- intros Hu. unfold handleCenterLocation. rewrite Hu. reflexivity.
- unfold handleCenterLocation. rewrite H. reflexivity.
- unfold handleCenterLocation. rewrite H. simpl. rewrite Hlt. reflexivity.
- rewrite step_geofencing.
  destruct (geofencing_frame (handle (SearchSelect loc name now) s))
    as (_ & _ & _ & _ & _ & _ & Hf & _).
  rewrite Hf. simpl. rewrite Hlt. reflexivity.
- rewrite step_geofencing.
  destruct (geofencing_frame (handle (SearchSelect loc name now) s))
    as (_ & Ht & _).
  rewrite Ht. reflexivity.
Qed.

Lemma focus_requests_witness :
  mapController
    (focusRequest (fst (step (CenterLocation 1700000000000) arrived))) 0
  = (Some (northOf origin 80), 1700000000000%Z).
Proof.
destruct (focus_requests arrived 1700000000000 0 origin "") as (_ & _ & H & _).
- unfold settled, geofencing; simpl.
  rewrite calculateDistance_northOf by lra.
  destruct (Rle_dec 80 100); [reflexivity | lra].
- lia.
- destruct (H (northOf origin 80) eq_refl) as [_ Hfly]. exact Hfly.
Defined.

(** ** Dismissing, the check included *)

(** X28.  What a dismissal comes to, on a state the component has reached.
    With the target triggered, or with no target, or with the position
    outside the radius, it clears the alarm flag, changes nothing else and
    raises nothing.  With the target armed and the position within the
    radius (the user came back while the alarm was still showing) the alarm
    is raised again at once. *)
Theorem dismissal_on_reached_state (s : App) :
  settled s ->
  (hasTriggeredForCurrentTarget s = true \/ targetLocation s = None \/
   (forall u t, userLocation s = Some u -> targetLocation s = Some t ->
      radius t < calculateDistance u t) ->
   step DismissAlarm s = (handleDismissAlarm s, [])) /\
  (forall u t, userLocation s = Some u -> targetLocation s = Some t ->
     hasTriggeredForCurrentTarget s = false ->
     calculateDistance u t <= radius t ->
     snd (step DismissAlarm s) = [Arrival] /\
     isAlarmActive (fst (step DismissAlarm s)) = true /\
     armState (fst (step DismissAlarm s)) = Triggered).
Proof.
intros Hs. split.
- intros Hcase. rewrite step_geofencing.
  destruct s as [hs pe ul tl di tr fr aa ht wi ge].
  unfold settled, geofencing, handle, handleDismissAlarm in *; simpl in *.
  destruct ul as [u |]; [destruct tl as [t |] |]; cbv zeta in *;
    unfold triggerAlarm, setDistance, setHasTriggeredForCurrentTarget,
           setIsAlarmActive in *; simpl in *;
    try (inversion Hs; subst; reflexivity).
  destruct aa, ht;
    destruct (Rle_dec (calculateDistance u t) (radius t)) as [Hin | Hout];
    try destruct (Rgt_dec (calculateDistance u t) (radius t + 50));
    simpl in *; inversion Hs; subst; try reflexivity;
    destruct Hcase as [Hc | [Hc | Hc]];
    solve [ discriminate Hc
          | specialize (Hc u t eq_refl eq_refl); lra ].
- intros u t Hu Ht Hg Hin.
  rewrite (dismiss_inside_armed s u t Hu Ht Hin Hg). simpl. auto.
Qed.

Lemma dismissal_on_reached_state_witness :
  step DismissAlarm arrived = (handleDismissAlarm arrived, []).
Proof.
destruct (dismissal_on_reached_state arrived) as [H _].
- unfold settled, geofencing; simpl.
  rewrite calculateDistance_northOf by lra.
  destruct (Rle_dec 80 100); [reflexivity | lra].
- apply H. left. reflexivity.
Defined.
